(** * Gemini real-time relay: desktop loop (main1.py) and WebSocket server
      (backend.py)

    A shallow embedding of the two programs of the repository and the
    properties of their media pipeline.

    - [Py]       the Python values the programs pass around (str, bytes,
                 dicts with string keys) and the str methods they call;
    - [Genai]    the remote session as the programs see it: the calls of
                 [session.send] and the items of [session.receive()];
    - [Backend]  backend.py: [from_client] and [from_gemini];
    - [Imaging]  the interface of the image libraries used by main1.py;
    - [Desktop]  main1.py: the [AudioLoop] tasks as atomic steps between
                 two awaits, interleaved by a schedule, and [run]. *)

From Stdlib Require Import ZArith NArith List String Ascii Bool Lia.
From Stdlib.Strings Require Import Byte.
From stdpp Require Import base option list gmap strings.
Import ListNotations.

Local Open Scope string_scope.
Local Open Scope list_scope.

(* ===================================================================== *)
(** ** Python values *)
(* ===================================================================== *)

Module Py.

(** [bytes] objects. *)
Abbreviation bytes := (list Byte.byte).

(** [str] objects: sequences of Unicode code points. *)
Abbreviation str := (list N).

(** A str literal of the program text. *)
Definition u (s : string) : str := List.map N_of_ascii (list_ascii_of_string s).
Coercion u : string >-> list.

(** The values stored in the dicts of the two programs. *)
Inductive value : Type :=
| VNone
| VInt (n : Z)
| VStr (s : str)
| VBytes (b : bytes).

(** A dict with string keys. *)
Abbreviation dict := (gmap string value).

(** Truth value of a str / bytes / optional object ([if x:]). *)
Definition truthy_str (s : str) : bool :=
  match s with [] => false | _ :: _ => true end.

Definition truthy_bytes (b : bytes) : bool :=
  match b with [] => false | _ :: _ => true end.

Definition truthy_opt {A} (t : A -> bool) (o : option A) : bool :=
  match o with None => false | Some x => t x end.

(** [==] on str. *)
Fixpoint str_eqb (s t : str) : bool :=
  match s, t with
  | [], [] => true
  | c :: s', d :: t' => N.eqb c d && str_eqb s' t'
  | _, _ => false
  end.

(** [str.isspace] on one character: the code points that [str.strip],
    [str.split] and [str.isspace] treat as whitespace (U+0009-000D,
    U+001C-0020, U+0085, U+00A0, U+1680, U+2000-200A, U+2028, U+2029,
    U+202F, U+205F, U+3000). *)
Definition is_space (c : N) : bool :=
  ((9 <=? c) && (c <=? 13) || (28 <=? c) && (c <=? 32)
   || (c =? 133) || (c =? 160) || (c =? 5760)
   || (8192 <=? c) && (c <=? 8202)
   || (c =? 8232) || (c =? 8233) || (c =? 8239) || (c =? 8287)
   || (c =? 12288))%N.

(** [str.lower] on one character.  Below U+0100 this is the Unicode case
    table (A-Z and the Latin-1 capitals but the multiplication sign).
    Above, the table is left out and the character is kept: the programs
    only compare the result with "q", and no character above U+00FF has
    "q" as its lower case, nor an empty one. *)
Definition lower_char (c : N) : N :=
  if ((65 <=? c) && (c <=? 90)
      || (192 <=? c) && (c <=? 222) && negb (c =? 215))%N
  then (c + 32)%N else c.

Definition lower (s : str) : str := List.map lower_char s.

(** [s.lstrip()], [s.rstrip()] and [s.strip()] with no argument. *)
Fixpoint lstrip (s : str) : str :=
  match s with
  | [] => []
  | c :: s' => if is_space c then lstrip s' else s
  end.

Fixpoint rstrip (s : str) : str :=
  match s with
  | [] => []
  | c :: s' =>
      match rstrip s' with
      | [] => if is_space c then [] else [c]
      | r => c :: r
      end
  end.

Definition strip (s : str) : str := rstrip (lstrip s).

(** [s.startswith(p)]. *)
Fixpoint startswith (s p : str) {struct p} : bool :=
  match p, s with
  | [], _ => true
  | d :: p', c :: s' => N.eqb c d && startswith s' p'
  | _ :: _, [] => false
  end.

(** The slice [s[n:]]. *)
Fixpoint slice_from (n : nat) (s : str) : str :=
  match n, s with
  | O, _ => s
  | S _, [] => []
  | S n', _ :: s' => slice_from n' s'
  end.

(** Every character of [s] is whitespace. *)
Fixpoint all_space (s : str) : bool :=
  match s with
  | [] => true
  | c :: s' => is_space c && all_space s'
  end.

(** First and last character, when there is one. *)
Definition first_char (s : str) : option N :=
  match s with [] => None | c :: _ => Some c end.

Fixpoint last_char (s : str) : option N :=
  match s with
  | [] => None
  | [c] => Some c
  | _ :: s' => last_char s'
  end.

(** A character that is absent or not whitespace. *)
Definition not_space_at (o : option N) : Prop :=
  match o with
  | Some c => is_space c = false
  | None => True
  end.

(** A bytes literal. *)
Definition bytes_of (s : string) : bytes := list_byte_of_string s.

(** [len(x)]; [None] stands for the TypeError of an object without
    length. *)
Definition len (v : value) : option nat :=
  match v with
  | VStr s => Some (List.length s)
  | VBytes b => Some (List.length b)
  | VNone | VInt _ => None
  end.

(** The exceptions that occur in the two programs. *)
Inductive exn : Type :=
| TypeError
| AttributeError
| KeyError
| RuntimeError
| OSError
| WebSocketDisconnect
| ConnectionClosed.

End Py.


(* ===================================================================== *)
(** ** The remote session *)
(* ===================================================================== *)

Module Genai.
Import Py.

(** The positional argument of [session.send]: a str or a dict. *)
Inductive send_input : Type :=
| InStr (s : str)
| InDict (d : dict).

(** One call [session.send(input, end_of_turn=...)]; [end_of_turn] is
    [None] when the call leaves the keyword out. *)
Record SendCall : Type := mkSend {
  input : send_input;
  end_of_turn : option bool
}.

(** One item of the stream [session.receive()]: [response.data] and
    [response.text], each possibly [None]. *)
Record Response : Type := mkResponse {
  data : option bytes;
  text : option str
}.

End Genai.

(* ===================================================================== *)
(** ** backend.py *)
(* ===================================================================== *)

Module Backend.
Import Py Genai.

(** Frames written to the client socket. *)
Inductive ws_frame : Type :=
| WsText (s : str)      (* websocket.send_text *)
| WsBytes (b : bytes).  (* websocket.send_bytes *)

(** What one connection has done so far: the calls of [session.send] and
    the frames sent to the client, oldest first.  The diagnostic [print]s
    are not part of the model. *)
Record Conn : Type := mkConn {
  session_sent : list SendCall;
  ws_sent : list ws_frame
}.

Definition session_send (i : send_input) (eot : option bool) (c : Conn) : Conn :=
  {| session_sent := session_sent c ++ [mkSend i eot]; ws_sent := ws_sent c |}.

Definition ws_send (f : ws_frame) (c : Conn) : Conn :=
  {| session_sent := session_sent c; ws_sent := ws_sent c ++ [f] |}.

(** Result of one pass through a loop body. *)
Inductive iter (S : Type) : Type :=
| Next (s : S)                 (* go on with the next iteration *)
| Raised (e : exn) (s : S).    (* the body raised [e] *)
Arguments Next {S} s.
Arguments Raised {S} e s.

(** The dict sent for a binary frame. *)
Definition audio_msg (audio_bytes : value) : dict :=
  {[ "mime_type" := VStr "audio/pcm"; "data" := audio_bytes ]}.

(** Body of the [while True] of [from_client] for the packet [pkt]
    returned by [websocket.receive()]. *)
Definition from_client_iter (pkt : dict) (c : Conn) : iter Conn :=
  match pkt !! "text" with
  | Some text_msg =>                                  (* "text" in pkt *)
      match text_msg with
      | VStr text_msg =>
          if startswith text_msg "TEXT:" then
            let user_text := strip (slice_from 5 text_msg) in
            Next (session_send (InStr user_text) (Some true) c)
          else if startswith text_msg "ACK:" then Next c
          else Next c
      | VBytes _ => Raised TypeError c
      | VNone | VInt _ => Raised AttributeError c
      end
  | None =>
      match pkt !! "bytes" with
      | Some audio_bytes =>                           (* "bytes" in pkt *)
          match len audio_bytes with
          | None => Raised TypeError c
          | Some n =>
              if Nat.eqb n 0 then Next c              (* continue *)
              else Next (session_send (InDict (audio_msg audio_bytes))
                                      (Some true) c)
          end
      | None => Next c
      end
  end.

(** What [websocket.receive()] does on one call. *)
Inductive recv : Type :=
| Pkt (pkt : dict)
| RecvRaises (e : exn).

(** How a task stands. *)
Inductive task_state : Type :=
| Pending                (* suspended in an await *)
| Returned               (* finished normally *)
| Failed (e : exn).      (* finished with an exception *)

(** [from_client] against the successive results of [websocket.receive()].
    [WebSocketDisconnect] is caught and ends the task; any other
    exception is re-raised. *)
Fixpoint from_client (inbox : list recv) (c : Conn) : task_state * Conn :=
  match inbox with
  | [] => (Pending, c)
  | RecvRaises WebSocketDisconnect :: _ => (Returned, c)
  | RecvRaises e :: _ => (Failed e, c)
  | Pkt pkt :: inbox' =>
      match from_client_iter pkt c with
      | Next c' => from_client inbox' c'
      | Raised WebSocketDisconnect c' => (Returned, c')
      | Raised e c' => (Failed e, c')
      end
  end.

(** Body of the [async for] of [from_gemini]: two independent [if]s. *)
Definition from_gemini_item (response : Response) (c : Conn) : Conn :=
  let c1 :=
    match data response with
    | Some raw_audio =>
        if truthy_bytes raw_audio
        then ws_send (WsBytes (bytes_of "AUDIO:" ++ raw_audio)) c
        else c
    | None => c
    end in
  match text response with
  | Some t => if truthy_str t then ws_send (WsText ("TEXT:" ++ t)) c1 else c1
  | None => c1
  end.

(** One turn: the stream [session.receive()] until it is exhausted. *)
Definition from_gemini_turn (c : Conn) (turn : list Response) : Conn :=
  fold_left (fun c r => from_gemini_item r c) turn c.

(** The [while True] over successive turns. *)
Definition from_gemini (turns : list (list Response)) (c : Conn) : Conn :=
  fold_left from_gemini_turn turns c.

(** The frames one response item puts on the socket. *)
Definition item_frames (response : Response) : list ws_frame :=
  ws_sent (from_gemini_item response (mkConn [] [])).

(** A frame as [from_gemini] builds it: its tag, then a payload that is
    not empty. *)
Definition tagged_frame (f : ws_frame) : Prop :=
  match f with
  | WsBytes b => exists raw_audio, raw_audio <> [] /\ b = bytes_of "AUDIO:" ++ raw_audio
  | WsText s => exists t, t <> [] /\ s = "TEXT:" ++ t
  end.

(** A call of [session.send] that ends the turn. *)
Definition turn_ending (call : SendCall) : Prop := end_of_turn call = Some true.

End Backend.

(* ===================================================================== *)
(** ** The image libraries of main1.py *)
(* ===================================================================== *)

Module Imaging.
Import Py.

(** The calls main1.py makes into OpenCV, Pillow, mss and base64.  Pixel
    contents stay abstract; what the programs and their properties depend
    on is the size of an image and the two codecs. *)
Class Lib : Type := {
  ndarray : Type;                                  (* a frame of [cap.read()] *)
  Image : Type;                                    (* PIL.Image.Image *)
  ScreenShot : Type;                               (* result of [sct.grab] *)
  cvtColor_BGR2RGB : ndarray -> ndarray;           (* cv2.cvtColor(_, COLOR_BGR2RGB) *)
  fromarray : ndarray -> Image;                    (* PIL.Image.fromarray *)
  thumbnail : Image -> N * N -> Image;             (* img.thumbnail(size), in place *)
  save_jpeg : Image -> bytes;                      (* img.save(io, format="jpeg"); io.read() *)
  rgb : ScreenShot -> bytes;                       (* i.rgb *)
  size : ScreenShot -> N * N;                      (* i.size *)
  to_png : bytes -> N * N -> bytes;                (* mss.tools.to_png *)
  image_open : bytes -> Image;                     (* PIL.Image.open(io.BytesIO(_)) *)
  b64encode : bytes -> str;                        (* base64.b64encode(_).decode() *)
  (* observations used to state properties *)
  im_size : Image -> N * N;                        (* img.size, (width, height) *)
  jpeg_size : bytes -> option (N * N);             (* size recorded in a JPEG stream *)
  b64decode : str -> option bytes                  (* base64.b64decode *)
}.

(** [a] is no larger than [bound] in both directions. *)
Definition fits (a bound : N * N) : Prop :=
  (fst a <= fst bound)%N /\ (snd a <= snd bound)%N.

Definition fitsb (a bound : N * N) : bool :=
  ((fst a <=? fst bound) && (snd a <=? snd bound))%N.

(** The documented contracts of the library calls. *)
Record Laws (L : Lib) : Prop := {
  (* Image.thumbnail: no larger than the given size *)
  thumbnail_fits : forall img x y,
    (1 <= x)%N -> (1 <= y)%N -> fits (im_size (thumbnail img (x, y))) (x, y);
  (* a saved JPEG records the size of the image *)
  jpeg_size_save : forall img, jpeg_size (save_jpeg img) = Some (im_size img);
  (* a screenshot written as PNG opens as an image of the same size *)
  open_png_size : forall px sz, im_size (image_open (to_png px sz)) = sz;
  (* base64 round trip *)
  b64_round_trip : forall x, b64decode (b64encode x) = Some x
}.

(** A small instance of the interface, for concrete runs: an image is its
    size and nothing else, the image codecs write the two numbers in
    unary, and the text codec maps each byte to the character of the same
    code. *)
Definition unary (n : N) : bytes := repeat x00 (N.to_nat n).

Fixpoint read_unary (l : bytes) : N * bytes :=
  match l with
  | x00 :: l' => let '(n, r) := read_unary l' in (N.succ n, r)
  | _ => (0%N, l)
  end.

Definition enc_size (sz : N * N) : bytes :=
  unary (fst sz) ++ [x01] ++ unary (snd sz) ++ [x02].

Definition dec_size (l : bytes) : option (N * N) :=
  match read_unary l with
  | (w, x01 :: l') =>
      match read_unary l' with
      | (h, [x02]) => Some (w, h)
      | _ => None
      end
  | _ => None
  end.

Definition scale_to_fit (sz bound : N * N) : N * N :=
  let '(w, h) := sz in
  let '(x, y) := bound in
  if ((w <=? x) && (h <=? y))%N then (w, h)
  else if (y * w <=? x * h)%N
       then (N.max 1 (y * w / h), y)
       else (x, N.max 1 (x * h / w)).

Fixpoint bytes_of_codes (s : str) : option bytes :=
  match s with
  | [] => Some []
  | c :: s' =>
      match Byte.of_N c, bytes_of_codes s' with
      | Some b, Some l => Some (b :: l)
      | _, _ => None
      end
  end.

Definition SizeOnly : Lib := {|
  ndarray := N * N;
  Image := N * N;
  ScreenShot := N * N;
  cvtColor_BGR2RGB := fun a => a;
  fromarray := fun a => a;
  thumbnail := scale_to_fit;
  save_jpeg := enc_size;
  rgb := fun _ => [];
  size := fun s => s;
  to_png := fun _ sz => enc_size sz;
  image_open := fun png => default (0%N, 0%N) (dec_size png);
  b64encode := List.map Byte.to_N;
  im_size := fun i => i;
  jpeg_size := dec_size;
  b64decode := bytes_of_codes
|}.

End Imaging.

(* ===================================================================== *)
(** ** main1.py *)
(* ===================================================================== *)

Module Desktop.
Import Py Genai.

(** The device handles of a session. *)
Inductive device : Type :=
| Mic          (* self.audio_stream, opened by listen_audio *)
| Speaker      (* stream, local to play_audio *)
| Camera.      (* cap, local to get_frames *)

Inductive dev_event : Type :=
| DevOpen (d : device)
| DevClose (d : device).

(** The local [cap] of [get_frames]. *)
Inductive cap_state : Type :=
| CapNone        (* cv2.VideoCapture(0) not yet returned *)
| CapOpen
| CapReleased.   (* the loop broke and cap.release() ran *)

(** An [AudioLoop] object together with what its tasks have done to the
    outside world.  Lists grow at their tail; queues are read at their
    head. *)
Record AudioLoop : Type := mkLoop {
  video_mode : str;
  audio_in_queue : list bytes;        (* asyncio.Queue() *)
  out_queue : list dict;              (* asyncio.Queue(maxsize=5) *)
  user_message_count : Z;
  audio_stream : bool;                (* hasattr(self, "audio_stream") *)
  play_stream : bool;                 (* play_audio has opened its stream *)
  cap : cap_state;
  session_sent : list SendCall;       (* calls of self.session.send *)
  speaker : list bytes;               (* stream.write(bytestream) *)
  display : list str;                 (* model text printed *)
  devices : list dev_event;           (* opens and closes of device handles *)
  summaries : list Z                  (* message counts printed by the summary *)
}.

Definition maxsize : nat := 5.



(** ** Field updates *)

Definition set_audio_in_queue (q : list bytes) (s : AudioLoop) : AudioLoop :=
  mkLoop (video_mode s) q (out_queue s) (user_message_count s)
         (audio_stream s) (play_stream s) (cap s) (session_sent s)
         (speaker s) (display s) (devices s) (summaries s).

Definition set_out_queue (q : list dict) (s : AudioLoop) : AudioLoop :=
  mkLoop (video_mode s) (audio_in_queue s) q (user_message_count s)
         (audio_stream s) (play_stream s) (cap s) (session_sent s)
         (speaker s) (display s) (devices s) (summaries s).

Definition set_user_message_count (n : Z) (s : AudioLoop) : AudioLoop :=
  mkLoop (video_mode s) (audio_in_queue s) (out_queue s) n
         (audio_stream s) (play_stream s) (cap s) (session_sent s)
         (speaker s) (display s) (devices s) (summaries s).

Definition set_audio_stream (b : bool) (s : AudioLoop) : AudioLoop :=
  mkLoop (video_mode s) (audio_in_queue s) (out_queue s) (user_message_count s)
         b (play_stream s) (cap s) (session_sent s)
         (speaker s) (display s) (devices s) (summaries s).

Definition set_play_stream (b : bool) (s : AudioLoop) : AudioLoop :=
  mkLoop (video_mode s) (audio_in_queue s) (out_queue s) (user_message_count s)
         (audio_stream s) b (cap s) (session_sent s)
         (speaker s) (display s) (devices s) (summaries s).

Definition set_cap (c : cap_state) (s : AudioLoop) : AudioLoop :=
  mkLoop (video_mode s) (audio_in_queue s) (out_queue s) (user_message_count s)
         (audio_stream s) (play_stream s) c (session_sent s)
         (speaker s) (display s) (devices s) (summaries s).

Definition session_send (i : send_input) (eot : option bool) (s : AudioLoop)
  : AudioLoop :=
  mkLoop (video_mode s) (audio_in_queue s) (out_queue s) (user_message_count s)
         (audio_stream s) (play_stream s) (cap s)
         (session_sent s ++ [mkSend i eot])
         (speaker s) (display s) (devices s) (summaries s).

Definition stream_write (chunk : bytes) (s : AudioLoop) : AudioLoop :=
  mkLoop (video_mode s) (audio_in_queue s) (out_queue s) (user_message_count s)
         (audio_stream s) (play_stream s) (cap s) (session_sent s)
         (speaker s ++ [chunk]) (display s) (devices s) (summaries s).

Definition print_text (t : str) (s : AudioLoop) : AudioLoop :=
  mkLoop (video_mode s) (audio_in_queue s) (out_queue s) (user_message_count s)
         (audio_stream s) (play_stream s) (cap s) (session_sent s)
         (speaker s) (display s ++ [t]) (devices s) (summaries s).

Definition dev (e : dev_event) (s : AudioLoop) : AudioLoop :=
  mkLoop (video_mode s) (audio_in_queue s) (out_queue s) (user_message_count s)
         (audio_stream s) (play_stream s) (cap s) (session_sent s)
         (speaker s) (display s) (devices s ++ [e]) (summaries s).

Definition print_session_summary (s : AudioLoop) : AudioLoop :=
  mkLoop (video_mode s) (audio_in_queue s) (out_queue s) (user_message_count s)
         (audio_stream s) (play_stream s) (cap s) (session_sent s)
         (speaker s) (display s) (devices s)
         (summaries s ++ [user_message_count s]).

(** What one atomic step of a task (the code between two awaits) does to
    the session. *)
Inductive outcome : Type :=
| Running (s : AudioLoop)             (* the step ran, the session goes on *)
| Disabled                            (* the task cannot take this step now *)
| Quit (s : AudioLoop)                (* send_text returned *)
| Crashed (e : exn) (s : AudioLoop).  (* the task raised e *)

(** [await self.out_queue.put(msg)]: waits while the queue is full. *)
Definition put (msg : dict) (s : AudioLoop) : outcome :=
  if Nat.ltb (List.length (out_queue s)) maxsize
  then Running (set_out_queue (out_queue s ++ [msg]) s)
  else Disabled.

(** ** send_text *)

(** One pass of the loop of [send_text], [input] having returned [text]. *)
Definition send_text_iter (text : str) (s : AudioLoop) : outcome :=
  if str_eqb (lower text) "q" then Quit s                        (* break *)
  else
    let s1 := if truthy_str (strip text)
              then set_user_message_count (user_message_count s + 1) s
              else s in
    Running (session_send (InStr (if truthy_str text then text else "."))
                          (Some true) s1).

(** ** send_realtime *)

(** One pass of the loop of [send_realtime]: [get] waits on an empty
    queue; the message is sent with no [end_of_turn] keyword. *)
Definition send_realtime_iter (s : AudioLoop) : outcome :=
  match out_queue s with
  | [] => Disabled
  | msg :: q => Running (session_send (InDict msg) None (set_out_queue q s))
  end.

(** ** listen_audio *)

(** [check_audio_input()], given what [pya.get_default_input_device_info()]
    does: return the device info, or raise. *)
Definition check_audio_input (info : option dict) : bool * option dict :=
  match info with
  | Some mic_info => (true, Some mic_info)
  | None => (false, None)                       (* except Exception *)
  end.

(** [listen_audio] up to its loop. *)
Definition listen_audio_open (info : option dict) (s : AudioLoop) : outcome :=
  if audio_stream s then Disabled else
  let '(mic_available, mic_info) := check_audio_input info in
  let s := if negb mic_available then s (* pass *) else s in
  match mic_info with
  | None => Crashed TypeError s                 (* mic_info["index"] *)
  | Some mic_info =>
      match mic_info !! "index" with
      | None => Crashed KeyError s
      | Some _ => Running (dev (DevOpen Mic) (set_audio_stream true s))
      end
  end.

Definition mic_msg (data : bytes) : dict :=
  {[ "data" := VBytes data; "mime_type" := VStr "audio/pcm" ]}.

(** One pass of the loop of [listen_audio], [audio_stream.read] having
    returned [data]. *)
Definition listen_audio_iter (data : bytes) (s : AudioLoop) : outcome :=
  if audio_stream s then put (mic_msg data) s else Disabled.

(** ** receive_audio *)

(** [if text := response.text: print(...)] *)
Definition show_text (response : Response) (s : AudioLoop) : AudioLoop :=
  match Genai.text response with
  | Some text => if truthy_str text then print_text text s else s
  | None => s
  end.

(** Body of the [async for] over one turn. *)
Definition receive_audio_item (response : Response) (s : AudioLoop) : AudioLoop :=
  match Genai.data response with
  | Some data =>
      if truthy_bytes data
      then set_audio_in_queue (audio_in_queue s ++ [data]) s     (* continue *)
      else show_text response s
  | None => show_text response s
  end.

(** [while not q.empty(): q.get_nowait()] *)
Fixpoint drain (q : list bytes) : list bytes :=
  match q with
  | [] => []
  | _ :: q' => drain q'
  end.

(** The code after the [async for]: the turn's stream is exhausted. *)
Definition receive_audio_turn_end (s : AudioLoop) : AudioLoop :=
  set_audio_in_queue (drain (audio_in_queue s)) s.

(** ** play_audio *)

Definition play_audio_open (s : AudioLoop) : outcome :=
  if play_stream s then Disabled
  else Running (dev (DevOpen Speaker) (set_play_stream true s)).

(** One pass of the loop of [play_audio]: [get] waits on an empty queue;
    once it has taken a chunk, the task hands it to [stream.write]
    without giving the other tasks a turn in between. *)
Definition play_audio_iter (s : AudioLoop) : outcome :=
  if play_stream s then
    match audio_in_queue s with
    | [] => Disabled
    | bytestream :: q => Running (stream_write bytestream (set_audio_in_queue q s))
    end
  else Disabled.

(** ** Video *)

Section Video.
Context {L : Imaging.Lib}.
Import Imaging.

Definition image_msg (image_bytes : bytes) : dict :=
  {[ "mime_type" := VStr "image/jpeg"; "data" := VStr (b64encode image_bytes) ]}.

(** [_get_frame(cap)], [cap.read()] having returned [(ret, frame)]. *)
Definition _get_frame (ret : bool) (frame : ndarray) : option dict :=
  if negb ret then None
  else
    let frame_rgb := cvtColor_BGR2RGB frame in
    let img := fromarray frame_rgb in
    let img := thumbnail img (1024, 1024)%N in
    let image_bytes := save_jpeg img in
    Some (image_msg image_bytes).

(** [_get_screen()], [sct.grab(monitor)] having returned [i]. *)
Definition _get_screen (i : ScreenShot) : option dict :=
  let image_bytes := to_png (rgb i) (size i) in
  let img := image_open image_bytes in
  let image_bytes := save_jpeg img in
  Some (image_msg image_bytes).

(** [get_frames] up to its loop; the task exists in camera mode only. *)
Definition get_frames_open (s : AudioLoop) : outcome :=
  if str_eqb (video_mode s) "camera" then
    match cap s with
    | CapNone => Running (dev (DevOpen Camera) (set_cap CapOpen s))
    | _ => Disabled
    end
  else Disabled.

(** One pass of the loop of [get_frames]. *)
Definition get_frames_iter (ret : bool) (frame : ndarray) (s : AudioLoop)
  : outcome :=
  match cap s with
  | CapOpen =>
      match _get_frame ret frame with
      | None => Running (dev (DevClose Camera) (set_cap CapReleased s))
      | Some frame => put frame s
      end
  | _ => Disabled
  end.

(** One pass of the loop of [get_screen]; the task exists in screen mode
    only. *)
Definition get_screen_iter (i : ScreenShot) (s : AudioLoop) : outcome :=
  if str_eqb (video_mode s) "screen" then
    match _get_screen i with
    | None => Running s                         (* break: the task returns *)
    | Some frame => put frame s
    end
  else Disabled.

(** The payload of a frame message, decoded back to an image size. *)
Definition frame_size (msg : dict) : option (N * N) :=
  match msg !! "data" with
  | Some (VStr d) =>
      match b64decode d with
      | Some jpeg => jpeg_size jpeg
      | None => None
      end
  | _ => None
  end.

(** ** The session *)

(** The atomic steps of the tasks of a session, as a schedule lists them. *)
Inductive event : Type :=
| Input (text : str)                       (* send_text *)
| Pump                                     (* send_realtime *)
| MicOpen (info : option dict)             (* listen_audio, before its loop *)
| MicRead (data : bytes)                   (* listen_audio *)
| CamOpen                                  (* get_frames, before its loop *)
| CamRead (ret : bool) (frame : ndarray)   (* get_frames *)
| ScreenGrab (i : ScreenShot)              (* get_screen *)
| Recv (response : Response)               (* receive_audio, inside a turn *)
| TurnComplete                             (* receive_audio, after a turn *)
| SpeakerOpen                              (* play_audio, before its loop *)
| Play                                     (* play_audio *)
| Fault (e : exn).                         (* an awaited call raises in a task *)

Definition step (ev : event) (s : AudioLoop) : outcome :=
  match ev with
  | Input text => send_text_iter text s
  | Pump => send_realtime_iter s
  | MicOpen info => listen_audio_open info s
  | MicRead data => listen_audio_iter data s
  | CamOpen => get_frames_open s
  | CamRead ret frame => get_frames_iter ret frame s
  | ScreenGrab i => get_screen_iter i s
  | Recv response => Running (receive_audio_item response s)
  | TurnComplete => Running (receive_audio_turn_end s)
  | SpeakerOpen => play_audio_open s
  | Play => play_audio_iter s
  | Fault e => Crashed e s
  end.

(** A schedule during which the session stays active. *)
Fixpoint exec (sched : list event) (s : AudioLoop) : option AudioLoop :=
  match sched with
  | [] => Some s
  | ev :: sched' =>
      match step ev s with
      | Running s' => exec sched' s'
      | _ => None
      end
  end.

(** How the body of the [async with] of [run] is left. *)
Inductive body_exit : Type :=
| ExitCancelled                (* CancelledError: the operator typed q *)
| ExitGroup (e : exn).         (* ExceptionGroup: a task raised e *)

Inductive body_end : Type :=
| Active (s : AudioLoop)                  (* schedule over, session running *)
| NoSchedule                              (* a step that cannot be taken *)
| Exit (x : body_exit) (s : AudioLoop).

(** The body of [run] under a schedule: the first task to return from
    [send_text] or to raise ends it; the task group cancels the others,
    which execute nothing further. *)
Fixpoint run_body (sched : list event) (s : AudioLoop) : body_end :=
  match sched with
  | [] => Active s
  | ev :: sched' =>
      match step ev s with
      | Running s' => run_body sched' s'
      | Disabled => NoSchedule
      | Quit s' => Exit ExitCancelled s'
      | Crashed e s' => Exit (ExitGroup e) s'
      end
  end.

(** [self.audio_stream.close()]; [None] stands for the AttributeError of
    a missing attribute. *)
Definition audio_stream_close (s : AudioLoop) : option AudioLoop :=
  if audio_stream s then Some (dev (DevClose Mic) s) else None.

(** The [except] clauses and the [finally] of [run]: the final state and
    the exception that leaves [run], if any. *)
Definition run_handlers (x : body_exit) (s : AudioLoop)
  : AudioLoop * option exn :=
  let '(s, raised) :=
    match x with
    | ExitCancelled => (s, None)                               (* pass *)
    | ExitGroup _ =>
        match audio_stream_close s with
        | Some s' => (s', None)                     (* then the traceback *)
        | None => (s, Some AttributeError)
        end
    end in
  (* finally *)
  let s := print_session_summary s in
  let s := if audio_stream s                  (* hasattr(self, "audio_stream") *)
           then default s (audio_stream_close s)
           else s in
  (s, raised).

Definition start (video_mode : str) : AudioLoop :=
  mkLoop video_mode [] [] 0 false false CapNone [] [] [] [] [].

Inductive session_end : Type :=
| StillActive (s : AudioLoop)
| Infeasible
| Closed (x : body_exit) (s : AudioLoop) (raised : option exn).

(** [AudioLoop(video_mode).run()] under a schedule. *)
Definition run (video_mode : str) (sched : list event) : session_end :=
  match run_body sched (start video_mode) with
  | Active s => StillActive s
  | NoSchedule => Infeasible
  | Exit x s => let '(s', raised) := run_handlers x s in Closed x s' raised
  end.

(** ** Observations on a schedule *)

(** The audio chunks a schedule puts into the inbound queue. *)
Fixpoint audio_received (sched : list event) : list bytes :=
  match sched with
  | [] => []
  | Recv r :: sched' =>
      match Genai.data r with
      | Some d => if truthy_bytes d then d :: audio_received sched'
                  else audio_received sched'
      | None => audio_received sched'
      end
  | _ :: sched' => audio_received sched'
  end.

(** The messages a schedule puts into the outbound queue. *)
Fixpoint enqueued (sched : list event) : list dict :=
  match sched with
  | [] => []
  | MicRead data :: sched' => mic_msg data :: enqueued sched'
  | CamRead ret frame :: sched' =>
      match _get_frame ret frame with
      | Some m => m :: enqueued sched'
      | None => enqueued sched'
      end
  | ScreenGrab i :: sched' =>
      match _get_screen i with
      | Some m => m :: enqueued sched'
      | None => enqueued sched'
      end
  | _ :: sched' => enqueued sched'
  end.

(** The lines a schedule has the operator type. *)
Fixpoint typed_lines (sched : list event) : list str :=
  match sched with
  | [] => []
  | Input text :: sched' => text :: typed_lines sched'
  | _ :: sched' => typed_lines sched'
  end.

(** The model texts a schedule has [receive_audio] print: the text of an
    item is printed when the item brings no audio. *)
Fixpoint texts_shown (sched : list event) : list str :=
  match sched with
  | [] => []
  | Recv r :: sched' =>
      if truthy_opt truthy_bytes (Genai.data r) then texts_shown sched'
      else match Genai.text r with
           | Some t => if truthy_str t then t :: texts_shown sched'
                       else texts_shown sched'
           | None => texts_shown sched'
           end
  | _ :: sched' => texts_shown sched'
  end.


(** No turn ends during the schedule. *)
Definition turn_free (sched : list event) : bool :=
  forallb (fun ev => match ev with TurnComplete => false | _ => true end) sched.

(** A step of [get_frames]. *)
Definition camera_step (ev : event) : bool :=
  match ev with
  | CamOpen | CamRead _ _ => true
  | _ => false
  end.

End Video.

(** The dict messages among the calls of [session.send], with the
    [end_of_turn] they were sent with. *)
Fixpoint dict_sends (calls : list SendCall) : list (dict * option bool) :=
  match calls with
  | [] => []
  | c :: calls' =>
      match input c with
      | InDict d => (d, end_of_turn c) :: dict_sends calls'
      | InStr _ => dict_sends calls'
      end
  end.

Definition is_close (d : device) (e : dev_event) : bool :=
  match e, d with
  | DevClose Mic, Mic | DevClose Speaker, Speaker | DevClose Camera, Camera => true
  | _, _ => false
  end.

Definition is_open (d : device) (e : dev_event) : bool :=
  match e, d with
  | DevOpen Mic, Mic | DevOpen Speaker, Speaker | DevOpen Camera, Camera => true
  | _, _ => false
  end.

(** How often a device handle was opened / closed. *)
Definition opens (d : device) (s : AudioLoop) : nat :=
  List.length (List.filter (is_open d) (devices s)).

Definition closes (d : device) (s : AudioLoop) : nat :=
  List.length (List.filter (is_close d) (devices s)).

(** While the tasks run, the device log agrees with what the tasks hold:
    a handle is opened once by the task that owns it, and the only close
    is the release of the camera when its loop breaks. *)
Definition devices_agree (s : AudioLoop) : Prop :=
  opens Mic s = (if audio_stream s then 1 else 0)
  /\ opens Speaker s = (if play_stream s then 1 else 0)
  /\ opens Camera s = match cap s with CapNone => 0 | _ => 1 end
  /\ closes Mic s = 0
  /\ closes Speaker s = 0
  /\ closes Camera s = match cap s with CapReleased => 1 | _ => 0 end.

(** The state an outcome leaves behind, if the step was taken. *)
Definition post (o : outcome) : option AudioLoop :=
  match o with
  | Running s | Quit s | Crashed _ s => Some s
  | Disabled => None
  end.

(** Messages waiting in the outbound queue, as the pump will send them. *)
Definition pending (q : list dict) : list (dict * option bool) :=
  List.map (fun msg => (msg, None)) q.

(** The str messages among the calls of [session.send], with the
    [end_of_turn] they were sent with. *)
Fixpoint str_sends (calls : list SendCall) : list (str * option bool) :=
  match calls with
  | [] => []
  | c :: calls' =>
      match input c with
      | InStr t => (t, end_of_turn c) :: str_sends calls'
      | InDict _ => str_sends calls'
      end
  end.

(** [text or "."] *)
Definition text_payload (text : str) : str :=
  if truthy_str text then text else ".".

(** A line that [send_text] counts: it holds a character that is not
    whitespace. *)
Definition counted (text : str) : bool := negb (all_space text).

(** A message of the microphone. *)
Definition is_audio_msg (msg : dict) : Prop :=
  msg !! "mime_type" = Some (VStr "audio/pcm").


End Desktop.

(* ===================================================================== *)
(** * Properties *)
(* ===================================================================== *)

(** ** Python strings *)

Section PyFacts.
Import Py.

Example strip_ex1 : strip "  hi there  " = "hi there".
Proof. reflexivity. Qed.

Example strip_ex2 : strip "   " = "".
Proof. reflexivity. Qed.

(** EM SPACE and IDEOGRAPHIC SPACE are stripped like a blank. *)
Example strip_ex3 : strip ([8195; 104; 105; 12288]%N) = "hi".
Proof. reflexivity. Qed.

Example lower_ex : lower "Q" = "q" /\ lower "HeLLo" = "hello".
Proof. split; reflexivity. Qed.

Example slice_ex :
  slice_from 5 "TEXT: hello" = " hello"
  /\ startswith "TEXT: hello" "TEXT:" = true
  /\ startswith "TEX" "TEXT:" = false.
Proof. repeat split; reflexivity. Qed.

Lemma str_eqb_spec (s t : str) : reflect (s = t) (str_eqb s t).
Proof.
  revert t. induction s as [|c s IH]; intros [|d t]; simpl;
    try (constructor; congruence).
  destruct (N.eqb_spec c d) as [->|Hne]; simpl.
  - destruct (IH t) as [->|Hne]; constructor; congruence.
  - constructor. congruence.
Qed.

Lemma lstrip_spec (s : str) :
  exists l, s = l ++ lstrip s /\ all_space l = true
            /\ not_space_at (first_char (lstrip s)).
Proof.
  induction s as [|c s IH]; simpl.
  - exists []. split; [reflexivity|]. split; [reflexivity|exact I].
  - destruct (is_space c) eqn:Hc.
    + destruct IH as (l & Hl & Hsp & Hfirst).
      exists (c :: l). split; [|split].
      * simpl. now rewrite <- Hl.
      * simpl. now rewrite Hc, Hsp.
      * exact Hfirst.
    + exists []. split; [reflexivity|]. split; [reflexivity|exact Hc].
Qed.

Lemma rstrip_spec (s : str) :
  exists r, s = rstrip s ++ r /\ all_space r = true
            /\ not_space_at (last_char (rstrip s)).
Proof.
  induction s as [|c s IH]; simpl.
  - exists []. split; [reflexivity|]. split; [reflexivity|exact I].
  - destruct IH as (r & Hr & Hsp & Hlast).
    destruct (rstrip s) as [|c' t] eqn:Hrs.
    + simpl in Hr. subst r.
      destruct (is_space c) eqn:Hc.
      * exists (c :: s). split; [reflexivity|]. split; [|exact I].
        simpl. now rewrite Hc, Hsp.
      * exists s. split; [reflexivity|]. split; [exact Hsp|exact Hc].
    + exists r. split; [|split].
      * simpl. simpl in Hr. now rewrite <- Hr.
      * exact Hsp.
      * exact Hlast.
Qed.

Lemma rstrip_first (s : str) :
  not_space_at (first_char s) -> first_char (rstrip s) = first_char s.
Proof.
  destruct s as [|c s]; simpl; trivial.
  intros Hc. destruct (rstrip s); [rewrite Hc|]; reflexivity.
Qed.

(** What [strip] returns: the argument without a whitespace prefix and a
    whitespace suffix, and with no whitespace left at either end. *)
Lemma strip_spec (s : str) :
  exists l r, s = l ++ strip s ++ r
              /\ all_space l = true /\ all_space r = true
              /\ not_space_at (first_char (strip s))
              /\ not_space_at (last_char (strip s)).
Proof.
  destruct (lstrip_spec s) as (l & Hl & Hlsp & Hfirst).
  destruct (rstrip_spec (lstrip s)) as (r & Hr & Hrsp & Hlast).
  exists l, r. unfold strip. repeat split; trivial.
  - rewrite <- Hr. exact Hl.
  - now rewrite rstrip_first.
Qed.

Lemma text_frame_payload (s : str) :
  startswith ("TEXT:" ++ s) "TEXT:" = true
  /\ slice_from 5 ("TEXT:" ++ s) = s.
Proof. split; vm_compute; reflexivity. Qed.

End PyFacts.

(** ** backend.py *)

Section BackendFacts.
Import Py Genai Backend.

Example from_client_text_ex :
  from_client [Pkt {[ "text" := VStr "TEXT: hi " ]};
               Pkt {[ "text" := VStr "ACK:CLIENT_READY" ]};
               Pkt {[ "bytes" := VBytes [] ]};
               Pkt {[ "type" := VStr "websocket.disconnect" ]};
               RecvRaises RuntimeError] (mkConn [] [])
  = (Failed RuntimeError, mkConn [mkSend (InStr "hi") (Some true)] []).
Proof. reflexivity. Qed.

Lemma audio_msg_data (v : value) : audio_msg v !! "data" = Some v.
Proof. unfold audio_msg. by simplify_map_eq. Qed.

Lemma audio_msg_mime (v : value) :
  audio_msg v !! "mime_type" = Some (VStr "audio/pcm").
Proof. unfold audio_msg. by simplify_map_eq. Qed.

Lemma from_gemini_item_frames (r : Response) (c : Conn) :
  ws_sent (from_gemini_item r c) = ws_sent c ++ item_frames r
  /\ session_sent (from_gemini_item r c) = session_sent c.
Proof.
  unfold item_frames, from_gemini_item.
  destruct (data r) as [raw|], (text r) as [t|];
    try destruct (truthy_bytes raw); try destruct (truthy_str t); simpl;
    rewrite <- ?app_assoc, ?app_nil_r; auto.
Qed.

Lemma from_gemini_turn_frames (turn : list Response) (c : Conn) :
  ws_sent (from_gemini_turn c turn) = ws_sent c ++ flat_map item_frames turn
  /\ session_sent (from_gemini_turn c turn) = session_sent c.
Proof.
  unfold from_gemini_turn. revert c.
  induction turn as [|r turn IH]; intros c; simpl.
  - now rewrite app_nil_r.
  - destruct (IH (from_gemini_item r c)) as [-> ->].
    destruct (from_gemini_item_frames r c) as [-> ->].
    now rewrite <- app_assoc.
Qed.

(** [from_gemini] keeps no audio back: when a turn's stream is exhausted,
    every frame of the turn is already on the socket, in stream order. *)
Lemma from_gemini_frames (turns : list (list Response)) (c : Conn) :
  ws_sent (from_gemini turns c)
  = ws_sent c ++ concat (map (flat_map item_frames) turns).
Proof.
  unfold from_gemini. revert c.
  induction turns as [|turn turns IH]; intros c; simpl.
  - now rewrite app_nil_r.
  - rewrite IH. destruct (from_gemini_turn_frames turn c) as [-> _].
    now rewrite <- app_assoc.
Qed.

(** What [from_gemini] writes while it reads later turns comes from
    those turns alone. *)
Lemma from_gemini_later_turns (turns1 turns2 : list (list Response)) (c : Conn) :
  ws_sent (from_gemini (turns1 ++ turns2) c)
  = ws_sent (from_gemini turns1 c) ++ concat (map (flat_map item_frames) turns2).
Proof.
  unfold from_gemini at 1. rewrite fold_left_app.
  apply (from_gemini_frames turns2).
Qed.

(** C6. A binary frame, that is a packet with key "bytes" and no key
    "text": when it carries at least one byte, [from_client] issues
    exactly one [session.send], of a dict whose "data" is the very bytes
    object received and whose "mime_type" is "audio/pcm", with
    [end_of_turn=True]; when it carries no byte, nothing is sent.  The
    client socket is not written to either way. *)
Theorem binary_frame_round_trip
  (pkt : dict) (audio_bytes : bytes) (c : Conn) :
  pkt !! "text" = None ->
  pkt !! "bytes" = Some (VBytes audio_bytes) ->
  exists c',
    from_client_iter pkt c = Next c'
    /\ ws_sent c' = ws_sent c
    /\ session_sent c' =
         session_sent c ++
         match audio_bytes with
         | [] => []
         | _ :: _ => [mkSend (InDict (audio_msg (VBytes audio_bytes))) (Some true)]
         end
    /\ audio_msg (VBytes audio_bytes) !! "data" = Some (VBytes audio_bytes)
    /\ audio_msg (VBytes audio_bytes) !! "mime_type" = Some (VStr "audio/pcm").
Proof.
  intros Htext Hbytes. unfold from_client_iter. rewrite Htext, Hbytes.
  destruct audio_bytes as [|b0 rest]; simpl.
  - exists c. rewrite app_nil_r. auto using audio_msg_data, audio_msg_mime.
  - eexists. split; [reflexivity|]. simpl.
    auto using audio_msg_data, audio_msg_mime.
Qed.

Lemma binary_frame_round_trip_witness :
  exists c',
    from_client_iter {[ "bytes" := VBytes [x01; x02; x03] ]} (mkConn [] [])
      = Next c'
    /\ session_sent c' =
         [mkSend (InDict (audio_msg (VBytes [x01; x02; x03]))) (Some true)].
Proof.
  edestruct (binary_frame_round_trip
               {[ "bytes" := VBytes [x01; x02; x03] ]} [x01; x02; x03]
               (mkConn [] []))
    as (c' & Hrun & _ & Hsent & _); [reflexivity | reflexivity |].
  exists c'. split; [exact Hrun | exact Hsent].
Defined.

(** C10. A text frame "TEXT:<s>": [from_client] issues exactly one
    [session.send], with [end_of_turn=True], of [s] without its leading
    and trailing whitespace, which is what [strip] returns; this holds
    also when nothing but the empty string is left. *)
Theorem text_frame_stripped (pkt : dict) (s : str) (c : Conn) :
  pkt !! "text" = Some (VStr ("TEXT:" ++ s)) ->
  exists c',
    from_client_iter pkt c = Next c'
    /\ ws_sent c' = ws_sent c
    /\ session_sent c' = session_sent c ++ [mkSend (InStr (strip s)) (Some true)]
    /\ exists l r,
         s = l ++ strip s ++ r
         /\ all_space l = true /\ all_space r = true
         /\ not_space_at (first_char (strip s))
         /\ not_space_at (last_char (strip s)).
Proof.
  intros Htext. unfold from_client_iter. rewrite Htext.
  destruct (text_frame_payload s) as [-> ->].
  eexists. split; [reflexivity|]. simpl.
  split; [reflexivity|]. split; [reflexivity|]. apply strip_spec.
Qed.

Lemma text_frame_stripped_witness :
  exists c',
    from_client_iter {[ "text" := VStr "TEXT:   " ]} (mkConn [] []) = Next c'
    /\ session_sent c' = [mkSend (InStr "") (Some true)].
Proof.
  edestruct (text_frame_stripped {[ "text" := VStr "TEXT:   " ]} "   "
               (mkConn [] []))
    as (c' & Hrun & _ & Hsent & _); [reflexivity |].
  exists c'. split; [exact Hrun | exact Hsent].
Defined.

(** The payload sent can differ from the payload received. *)
Example text_frame_changes_payload :
  from_client_iter {[ "text" := VStr "TEXT: hi " ]} (mkConn [] [])
  = Next (mkConn [mkSend (InStr "hi") (Some true)] []).
Proof. reflexivity. Qed.

End BackendFacts.

(** ** main1.py: the text input *)

Section SendTextFacts.
Import Py Genai Desktop.

Lemma truthy_str_true (s : str) : s <> "" -> truthy_str s = true.
Proof. intros H. destruct s; [now elim H | reflexivity]. Qed.

(** C8. An empty line is not the quit sentinel: [send_text] issues one
    [session.send] of the placeholder "." with [end_of_turn=True], and
    [user_message_count] keeps its value. *)
Theorem empty_line_sends_placeholder (s : AudioLoop) :
  exists s',
    send_text_iter "" s = Running s'
    /\ session_sent s' = session_sent s ++ [mkSend (InStr ".") (Some true)]
    /\ user_message_count s' = user_message_count s.
Proof.
  eexists. split; [reflexivity|]. split; reflexivity.
Qed.

(** C7, as the code has it.  A line that is not the quit sentinel ("q" in
    either case) and that holds a character other than whitespace:
    [send_text] issues exactly one [session.send] of the line as typed,
    with [end_of_turn=True], and [user_message_count] grows by one. *)
Theorem counted_line_sent_once (text : str) (s : AudioLoop) :
  lower text <> "q" ->
  strip text <> "" ->
  exists s',
    send_text_iter text s = Running s'
    /\ session_sent s' = session_sent s ++ [mkSend (InStr text) (Some true)]
    /\ user_message_count s' = (user_message_count s + 1)%Z.
Proof.
  intros Hquit Hstrip. unfold send_text_iter.
  destruct (str_eqb_spec (lower text) "q") as [Hq|_]; [now elim Hquit|].
  rewrite (truthy_str_true _ Hstrip).
  assert (Htext : text <> "") by (intros ->; now apply Hstrip).
  rewrite (truthy_str_true _ Htext).
  eexists. split; [reflexivity|]. split; reflexivity.
Qed.

Lemma counted_line_sent_once_witness :
  exists s',
    send_text_iter "hello" (start "none") = Running s'
    /\ session_sent s' = [mkSend (InStr "hello") (Some true)]
    /\ user_message_count s' = 1%Z.
Proof.
  apply (counted_line_sent_once "hello" (start "none")); vm_compute; congruence.
Defined.

(** C7 as claimed fails on non-empty lines of two kinds: a line of
    whitespace is sent but not counted, and the line "q" is neither sent
    nor counted. *)
Lemma nonempty_line_not_counted :
  (exists s',
     send_text_iter " " (start "none") = Running s'
     /\ session_sent s' = [mkSend (InStr " ") (Some true)]
     /\ user_message_count s' = user_message_count (start "none"))
  /\ send_text_iter "q" (start "none") = Quit (start "none")
  /\ send_text_iter "Q" (start "none") = Quit (start "none").
Proof.
  split; [|split; reflexivity].
  eexists. split; [reflexivity|]. split; reflexivity.
Qed.

End SendTextFacts.

(** ** main1.py: the microphone *)

Section MicFacts.
Import Py Genai Backend Desktop.
Context {L : Imaging.Lib}.

(** C4 fails on the code.  With no default input device
    [check_audio_input] returns [(False, None)]; [listen_audio] goes on
    to subscript [None], the task group ends the session, and the handler
    of [run] raises AttributeError on the [audio_stream] that was never
    set: the session is over after the summary, with an exception. *)
Theorem no_microphone_ends_session (video_mode : str) :
  check_audio_input None = (false, None)
  /\ listen_audio_open None (start video_mode)
     = Crashed TypeError (start video_mode)
  /\ run video_mode [MicOpen None]
     = Closed (ExitGroup TypeError)
              (print_session_summary (start video_mode))
              (Some AttributeError).
Proof. repeat split. Qed.

End MicFacts.

(** ** main1.py: camera and screen frames *)

Section ImagingFacts.
Import Py Imaging.

Lemma read_unary_unary (n : N) (b : byte) (rest : bytes) :
  b <> x00 -> read_unary (unary n ++ b :: rest) = (n, b :: rest).
Proof.
  intros Hb. unfold unary.
  rewrite <- (N2Nat.id n) at 2. generalize (N.to_nat n) as k.
  induction k as [|k IH].
  - cbn [repeat app]. destruct b; (reflexivity || congruence).
  - cbn [repeat app read_unary]. rewrite IH. now rewrite Nat2N.inj_succ.
Qed.

Lemma dec_enc_size (sz : N * N) : dec_size (enc_size sz) = Some sz.
Proof.
  destruct sz as [w h]. unfold dec_size, enc_size. cbn [fst snd].
  change ([x01] ++ unary h ++ [x02]) with (x01 :: unary h ++ [x02]).
  rewrite read_unary_unary by discriminate.
  rewrite read_unary_unary by discriminate. reflexivity.
Qed.

Lemma scale_to_fit_fits (sz : N * N) (x y : N) :
  (1 <= x)%N -> (1 <= y)%N -> fits (scale_to_fit sz (x, y)) (x, y).
Proof.
  intros Hx Hy. destruct sz as [w h]. unfold scale_to_fit, fits.
  destruct ((w <=? x) && (h <=? y))%N eqn:Hfit.
  - apply andb_true_iff in Hfit as [Hw Hh].
    apply N.leb_le in Hw, Hh. cbn [fst snd]. lia.
  - destruct (y * w <=? x * h)%N eqn:Hasp; cbn [fst snd].
    + apply N.leb_le in Hasp. split; [|lia].
      apply N.max_lub; [exact Hx|].
      destruct (N.eq_dec h 0%N) as [->|Hh0].
      * rewrite N.div_0_r. lia.
      * apply N.Div0.div_le_upper_bound. lia.
    + apply N.leb_gt in Hasp. split; [lia|].
      apply N.max_lub; [exact Hy|].
      destruct (N.eq_dec w 0%N) as [->|Hw0].
      * rewrite N.div_0_r. lia.
      * apply N.Div0.div_le_upper_bound. lia.
Qed.

Lemma SizeOnly_laws : Laws SizeOnly.
Proof.
  split; simpl.
  - intros img x y. apply scale_to_fit_fits.
  - apply dec_enc_size.
  - intros _ sz. now rewrite dec_enc_size.
  - intros x. induction x as [|b x IH]; simpl; [reflexivity|].
    now rewrite Byte.of_to_N, IH.
Qed.

End ImagingFacts.

Section VideoFacts.
Import Py Genai Imaging Desktop.
Context {L : Imaging.Lib}.

Lemma image_msg_data (image_bytes : bytes) :
  image_msg image_bytes !! "data" = Some (VStr (b64encode image_bytes)).
Proof. unfold image_msg. by simplify_map_eq. Qed.

Lemma image_msg_mime (image_bytes : bytes) :
  image_msg image_bytes !! "mime_type" = Some (VStr "image/jpeg").
Proof. unfold image_msg. by simplify_map_eq. Qed.

Lemma frame_size_image_msg (img : Image) :
  Laws L -> frame_size (image_msg (save_jpeg img)) = Some (im_size img).
Proof.
  intros HL. unfold frame_size. rewrite image_msg_data.
  rewrite (b64_round_trip L HL). apply (jpeg_size_save L HL).
Qed.

(** C9, as the code has it.  A camera frame enters the outbound queue as
    a JPEG of an image that [thumbnail] has brought within 1024 x 1024,
    whatever the size of the captured frame.  A screen frame enters the
    queue as a JPEG of the screenshot at its own size: [_get_screen] does
    not resize. *)
Theorem frame_payload_size :
  Laws L ->
  (forall (frame : ndarray) (s s' : AudioLoop),
     get_frames_iter true frame s = Running s' ->
     exists m sz,
       _get_frame true frame = Some m
       /\ out_queue s' = out_queue s ++ [m]
       /\ m !! "mime_type" = Some (VStr "image/jpeg")
       /\ frame_size m = Some sz
       /\ fits sz (1024, 1024)%N)
  /\ (forall (i : ScreenShot) (s s' : AudioLoop),
        get_screen_iter i s = Running s' ->
        exists m,
          _get_screen i = Some m
          /\ out_queue s' = out_queue s ++ [m]
          /\ m !! "mime_type" = Some (VStr "image/jpeg")
          /\ frame_size m = Some (size i)).
Proof.
  intros HL. split.
  - intros frame s s' Hcam. unfold get_frames_iter in Hcam.
    destruct (cap s); try discriminate Hcam.
    unfold _get_frame, put in *. cbn [negb] in *.
    destruct (Nat.ltb _ _); inversion Hcam; subst; clear Hcam.
    eexists. eexists. split; [reflexivity|]. split; [reflexivity|].
    split; [apply image_msg_mime|].
    split; [apply frame_size_image_msg; exact HL|].
    apply (thumbnail_fits L HL); lia.
  - intros i s s' Hscreen. unfold get_screen_iter in Hscreen.
    destruct (str_eqb _ _); try discriminate Hscreen.
    unfold _get_screen, put in *.
    destruct (Nat.ltb _ _); inversion Hscreen; subst; clear Hscreen.
    eexists. split; [reflexivity|]. split; [reflexivity|].
    split; [apply image_msg_mime|].
    rewrite frame_size_image_msg by exact HL.
    now rewrite (open_png_size L HL).
Qed.

End VideoFacts.

(** A 4000 x 3000 camera frame is queued within 1024 x 1024. *)
Lemma frame_payload_size_witness :
  exists m s' sz,
    Desktop.get_frames_iter (L := Imaging.SizeOnly) true (4000, 3000)%N
      (Desktop.set_cap Desktop.CapOpen (Desktop.start (Py.u "camera")))
      = Desktop.Running s'
    /\ Desktop.out_queue s' = [m]
    /\ Desktop.frame_size (L := Imaging.SizeOnly) m = Some sz
    /\ Imaging.fits sz (1024, 1024)%N.
Proof.
  destruct (frame_payload_size (L := Imaging.SizeOnly) SizeOnly_laws)
    as [Hcam _].
  edestruct (Hcam (4000, 3000)%N
               (Desktop.set_cap Desktop.CapOpen (Desktop.start (Py.u "camera"))))
    as (m & sz & _ & Hq & _ & Hsz & Hfit); [reflexivity|].
  exists m. eexists. exists sz.
  split; [reflexivity|]. split; [exact Hq|]. split; [exact Hsz | exact Hfit].
Defined.

(** C9 as claimed fails on screen frames: a 1920 x 1080 screenshot enters
    the queue at 1920 x 1080. *)
Lemma screen_frame_not_resized :
  exists m s',
    Desktop._get_screen (L := Imaging.SizeOnly) (1920, 1080)%N = Some m
    /\ Desktop.get_screen_iter (L := Imaging.SizeOnly) (1920, 1080)%N
         (Desktop.start (Py.u "screen")) = Desktop.Running s'
    /\ Desktop.out_queue s' = [m]
    /\ Desktop.frame_size (L := Imaging.SizeOnly) m = Some (1920, 1080)%N
    /\ Imaging.fitsb (1920, 1080)%N (1024, 1024)%N = false.
Proof.
  eexists. eexists. split; [reflexivity|]. split; [reflexivity|].
  split; [reflexivity|]. split; vm_compute; reflexivity.
Qed.

(** ** main1.py: schedules *)

Section ScheduleFacts.
Import Py Genai Imaging Desktop.
Context {L : Imaging.Lib}.

(** Case analysis on a step that ran. *)
Ltac step_inv H :=
  unfold step, send_text_iter, send_realtime_iter, listen_audio_open,
    listen_audio_iter, get_frames_open, get_frames_iter, get_screen_iter,
    play_audio_open, play_audio_iter, put, check_audio_input,
    receive_audio_turn_end in H;
  repeat match type of H with
         | context [if ?b then _ else _] => destruct b eqn:?
         | context [match ?x with _ => _ end] => destruct x eqn:?
         end;
  try discriminate H; inversion H; subst; clear H.

Lemma exec_app (a b : list event) (s : AudioLoop) :
  exec (a ++ b) s = match exec a s with Some s' => exec b s' | None => None end.
Proof.
  revert s. induction a as [|ev a IH]; intros s; simpl; [reflexivity|].
  destruct (step ev s); auto.
Qed.

Lemma drain_nil (q : list bytes) : drain q = [].
Proof. induction q; auto. Qed.

Lemma receive_audio_item_queue (r : Response) (s : AudioLoop) :
  audio_in_queue (receive_audio_item r s)
    = audio_in_queue s ++ audio_received [Recv r]
  /\ speaker (receive_audio_item r s) = speaker s
  /\ out_queue (receive_audio_item r s) = out_queue s
  /\ session_sent (receive_audio_item r s) = session_sent s
  /\ devices (receive_audio_item r s) = devices s
  /\ audio_stream (receive_audio_item r s) = audio_stream s
  /\ play_stream (receive_audio_item r s) = play_stream s
  /\ cap (receive_audio_item r s) = cap s.
Proof.
  unfold receive_audio_item, show_text. cbn [audio_received].
  destruct (data r) as [d|]; [destruct (truthy_bytes d)|];
    destruct (text r) as [t|]; try destruct (truthy_str t);
    simpl; rewrite ?app_nil_r; repeat split.
Qed.

(** The speaker only ever receives chunks that were in the inbound queue
    or arrived during the schedule, in their order of arrival. *)
Lemma exec_playback (sched : list event) :
  forall s s', exec sched s = Some s' ->
  exists played,
    speaker s' = speaker s ++ played
    /\ sublist (played ++ audio_in_queue s')
               (audio_in_queue s ++ audio_received sched).
Proof.
  induction sched as [|ev sched IH]; intros s s' Hexec; simpl in Hexec.
  - inversion Hexec; subst. exists []. rewrite !app_nil_r. split; reflexivity.
  - destruct (step ev s) as [s1| |s1|e s1] eqn:Hstep; try discriminate.
    destruct (IH _ _ Hexec) as (played & Hsp & Hsub). clear IH Hexec.
    destruct ev;
      try (assert (Hsame : audio_in_queue s1 = audio_in_queue s
                           /\ speaker s1 = speaker s)
             by (step_inv Hstep; split; reflexivity);
           destruct Hsame as [Hq Hs]; rewrite Hq, Hs in *;
           exists played; split; [exact Hsp | exact Hsub]).
    + (* Recv *)
      inversion Hstep; subst; clear Hstep.
      destruct (receive_audio_item_queue response s) as (Hq & Hs & _).
      rewrite Hq, Hs in *. exists played. split; [exact Hsp|].
      cbn [audio_received] in *.
      destruct (data response) as [d|]; [destruct (truthy_bytes d)|];
        rewrite ?app_nil_r in Hsub; try exact Hsub.
      now rewrite <- app_assoc in Hsub.
    + (* TurnComplete *)
      step_inv Hstep. simpl in *. rewrite drain_nil in Hsub.
      exists played. split; [exact Hsp|].
      cbn [audio_received]. now apply sublist_inserts_l.
    + (* Play *)
      step_inv Hstep. simpl in *.
      exists (l :: played). split.
      * now rewrite Hsp, <- app_assoc.
      * cbn [audio_received]. simpl. now apply sublist_skip.
Qed.

(** C1. Once [receive_audio] has processed the end of a turn, the inbound
    queue is empty, and what [play_audio] writes to the speaker from then
    on is taken, in order, from the chunks that arrive after that point:
    no chunk received up to the turn boundary reaches the speaker after
    it, whatever the schedule.  The server has no inbound queue: what
    [from_gemini] writes to the socket after a turn boundary comes from
    the later turns alone. *)
Theorem stale_audio_never_played
  (sched1 sched2 : list event) (s s1 s2 : AudioLoop) :
  exec (sched1 ++ [TurnComplete]) s = Some s1 ->
  exec sched2 s1 = Some s2 ->
  audio_in_queue s1 = []
  /\ (exists played,
        speaker s2 = speaker s1 ++ played
        /\ sublist played (audio_received sched2))
  /\ forall (turns1 turns2 : list (list Response)) (c : Backend.Conn),
       Backend.ws_sent (Backend.from_gemini (turns1 ++ turns2) c)
       = Backend.ws_sent (Backend.from_gemini turns1 c)
         ++ concat (map (flat_map Backend.item_frames) turns2).
Proof.
  intros H1 H2. rewrite exec_app in H1.
  destruct (exec sched1 s) as [s0|]; [|discriminate].
  simpl in H1. inversion H1; subst; clear H1.
  assert (Hempty : audio_in_queue (receive_audio_turn_end s0) = [])
    by (unfold receive_audio_turn_end; simpl; apply drain_nil).
  split; [exact Hempty|]. split; [|apply from_gemini_later_turns].
  destruct (exec_playback _ _ _ H2) as (played & Hsp & Hsub).
  exists played. split; [exact Hsp|].
  rewrite Hempty in Hsub. simpl in Hsub.
  transitivity (played ++ audio_in_queue s2); [|exact Hsub].
  now apply sublist_inserts_r.
Qed.

Lemma dict_sends_app (a b : list SendCall) :
  dict_sends (a ++ b) = dict_sends a ++ dict_sends b.
Proof.
  induction a as [|c a IH]; simpl; [reflexivity|].
  destruct (input c); simpl; now rewrite IH.
Qed.

Lemma pending_app (a b : list dict) : pending (a ++ b) = pending a ++ pending b.
Proof. apply List.map_app. Qed.

(** The dict sends made so far, followed by what still waits in the
    queue, are the messages in the order in which they were enqueued. *)
Lemma exec_outbound (sched : list event) :
  forall s s', exec sched s = Some s' ->
  dict_sends (session_sent s') ++ pending (out_queue s')
  = dict_sends (session_sent s) ++ pending (out_queue s ++ enqueued sched).
Proof.
  induction sched as [|ev sched IH]; intros s s' Hexec; simpl in Hexec.
  - inversion Hexec; subst. simpl. now rewrite app_nil_r.
  - destruct (step ev s) as [s1| |s1|e s1] eqn:Hstep; try discriminate.
    rewrite (IH _ _ Hexec). clear IH Hexec.
    destruct ev; cbn [enqueued];
      try (destruct (receive_audio_item_queue response s)
             as (_ & _ & Hq & Hs & _);
           inversion Hstep; subst; now rewrite Hq, Hs);
      step_inv Hstep; simpl;
      rewrite ?dict_sends_app, ?pending_app, <- ?app_assoc; simpl;
      rewrite ?app_nil_r; try reflexivity.
Qed.

(** Left alone, the pump empties the queue with one send per message. *)
Lemma pump_drains (q : list dict) :
  forall s, out_queue s = q ->
  exists s',
    exec (repeat Pump (List.length q)) s = Some s'
    /\ out_queue s' = []
    /\ session_sent s'
       = session_sent s ++ List.map (fun msg => mkSend (InDict msg) None) q.
Proof.
  induction q as [|msg q IH]; intros s Hq; simpl.
  - exists s. rewrite app_nil_r. auto.
  - unfold send_realtime_iter. rewrite Hq.
    destruct (IH (session_send (InDict msg) None (set_out_queue q s)) eq_refl)
      as (s' & Hexec & Hempty & Hsent).
    exists s'. split; [exact Hexec|]. split; [exact Hempty|].
    rewrite Hsent. simpl. now rewrite <- app_assoc.
Qed.

(** C2. [send_realtime] is the only step that takes messages out of the
    outbound queue; each pass takes the message at the head and calls
    [session.send] once with that message, leaving [end_of_turn] out, as
    a queued message carries none.  Hence under every schedule the dict
    sends made so far, followed by the messages still queued, are the
    enqueued messages in their order of arrival; and the pump left alone
    sends all that is queued, one call per message, in that order. *)
Theorem outbound_pump_fifo (sched : list event) (s s' : AudioLoop) :
  exec sched s = Some s' ->
  dict_sends (session_sent s') ++ pending (out_queue s')
  = dict_sends (session_sent s) ++ pending (out_queue s ++ enqueued sched)
  /\ (forall ev s1 s2,
        step ev s1 = Running s2 ->
        (ev = Pump
         /\ exists msg,
              out_queue s1 = msg :: out_queue s2
              /\ session_sent s2 = session_sent s1 ++ [mkSend (InDict msg) None])
        \/ (ev <> Pump /\ exists new, out_queue s2 = out_queue s1 ++ new))
  /\ exists s'',
       exec (repeat Pump (List.length (out_queue s'))) s' = Some s''
       /\ out_queue s'' = []
       /\ session_sent s''
          = session_sent s'
            ++ List.map (fun msg => mkSend (InDict msg) None) (out_queue s').
Proof.
  intros Hexec. split; [now apply exec_outbound|]. split.
  - clear. intros ev s1 s2 Hstep.
    destruct ev;
      try (right; split; [discriminate|];
           first [ destruct (receive_audio_item_queue response s1)
                     as (_ & _ & Hq & _);
                   inversion Hstep; subst; exists []; now rewrite Hq, app_nil_r
                 | step_inv Hstep; simpl;
                   first [ exists []; now rewrite app_nil_r
                         | eexists; reflexivity ] ]).
    left. split; [reflexivity|]. step_inv Hstep. simpl.
    eexists. split; reflexivity.
  - now apply pump_drains.
Qed.

Lemma post_devices_agree (ev : event) (s s' : AudioLoop) :
  devices_agree s -> post (step ev s) = Some s' -> devices_agree s'.
Proof.
  unfold devices_agree, opens, closes.
  intros (Hm & Hs & Hc & Hcm & Hcs & Hcc) Hpost.
  destruct (step ev s) as [s1| |s1|e s1] eqn:Hstep;
    simpl in Hpost; inversion Hpost; subst; clear Hpost;
    (destruct ev;
     try (destruct (receive_audio_item_queue response s)
            as (_ & _ & _ & _ & Hd & Ha & Hp & Hcap);
          inversion Hstep; subst; rewrite Hd, Ha, Hp, Hcap; tauto);
     step_inv Hstep; simpl;
     rewrite ?List.filter_app, ?List.length_app; simpl;
     rewrite ?Hm, ?Hs, ?Hc, ?Hcm, ?Hcs, ?Hcc;
     repeat match goal with
            | H : audio_stream _ = _ |- _ => rewrite H in *
            | H : play_stream _ = _ |- _ => rewrite H in *
            | H : cap _ = _ |- _ => rewrite H in *
            end;
     repeat split; try lia;
     repeat match goal with
            | |- context [if ?b then _ else _] => destruct b
            | |- context [match ?x with _ => _ end] => destruct x
            end; simpl; lia).
Qed.

Lemma run_body_devices_agree (sched : list event) :
  forall s x s', devices_agree s -> run_body sched s = Exit x s' ->
  devices_agree s'.
Proof.
  induction sched as [|ev sched IH]; intros s x s' Hs Hrun; simpl in Hrun;
    [discriminate|].
  destruct (step ev s) as [s1| |s1|e s1] eqn:Hstep; try discriminate.
  - eapply IH; [|exact Hrun].
    eapply post_devices_agree; [exact Hs|]. now rewrite Hstep.
  - inversion Hrun; subst.
    eapply post_devices_agree; [exact Hs|]. now rewrite Hstep.
  - inversion Hrun; subst.
    eapply post_devices_agree; [exact Hs|]. now rewrite Hstep.
Qed.

(** C5, as the code has it.  However a session ends, the speaker stream
    of [play_audio] has not been closed, and the camera has been released
    once if its capture loop had ended on a failed read and not at all
    otherwise.  When the session ends by the operator's quit, [run]
    raises nothing and the microphone stream, if [listen_audio] had
    opened it, has been closed exactly once, by the [finally] clause. *)
Theorem device_release
  (video_mode : str) (sched : list event) (x : body_exit) (s : AudioLoop)
  (raised : option exn) :
  run video_mode sched = Closed x s raised ->
  closes Speaker s = 0
  /\ closes Camera s = match cap s with CapReleased => 1 | _ => 0 end
  /\ closes Camera s <= opens Camera s <= 1
  /\ (x = ExitCancelled ->
      raised = None
      /\ closes Mic s = opens Mic s
      /\ opens Mic s = if audio_stream s then 1 else 0).
Proof.
  unfold run. intros Hrun.
  destruct (run_body sched (start video_mode)) as [| |x0 s0] eqn:Hbody;
    try discriminate.
  assert (Hagree : devices_agree s0).
  { eapply run_body_devices_agree; [|exact Hbody].
    unfold devices_agree, opens, closes. simpl. tauto. }
  destruct Hagree as (Hm & Hs & Hc & Hcm & Hcs & Hcc).
  unfold opens, closes in *.
  unfold run_handlers, audio_stream_close in Hrun.
  destruct x0 as [|e], (audio_stream s0) eqn:Ha; simpl in Hrun;
    rewrite ?Ha in Hrun; simpl in Hrun;
    inversion Hrun; subst; clear Hrun; simpl;
    rewrite ?List.filter_app, ?List.length_app; simpl;
    rewrite ?Hm, ?Hs, ?Hc, ?Hcm, ?Hcs, ?Hcc, ?Ha;
    (split; [lia|]); (split; [destruct (cap s0); lia|]);
    (split; [destruct (cap s0); lia|]);
    intros Hx; try discriminate Hx; repeat split; lia.
Qed.







End ScheduleFacts.

(** ** Sessions on concrete schedules *)

Section Scenarios.
Import Py Genai Imaging Desktop.

Let A1 : bytes := [x0a; x01].
Let A2 : bytes := [x0a; x02].
Let A3 : bytes := [x0a; x03].
Let mic0 : option dict := Some {[ "index" := VInt 0; "name" := VStr "default" ]}.

(** Two chunks arrive, the turn completes before either is played, the
    next turn brings a third chunk: the speaker gets the third only. *)
Lemma stale_audio_never_played_witness :
  exists s1 s2 played,
    exec (L := SizeOnly)
      ([SpeakerOpen; Recv (mkResponse (Some A1) None);
        Recv (mkResponse (Some A2) None)] ++ [TurnComplete])
      (start "none") = Some s1
    /\ exec (L := SizeOnly) [Recv (mkResponse (Some A3) None); Play] s1 = Some s2
    /\ audio_in_queue s1 = []
    /\ speaker s2 = speaker s1 ++ played
    /\ sublist played [A3].
Proof.
  pose proof (fun s1 s2 =>
                stale_audio_never_played (L := SizeOnly)
                  [SpeakerOpen; Recv (mkResponse (Some A1) None);
                   Recv (mkResponse (Some A2) None)]
                  [Recv (mkResponse (Some A3) None); Play]
                  (start "none") s1 s2) as H.
  edestruct H as (Hq & (played & Hsp & Hsub) & _);
    [reflexivity | reflexivity |].
  do 2 eexists. exists played.
  split; [reflexivity|]. split; [reflexivity|].
  split; [exact Hq|]. split; [exact Hsp | exact Hsub].
Defined.

Example turn_boundary_scenario :
  exists s,
    exec (L := SizeOnly)
      [SpeakerOpen; Recv (mkResponse (Some A1) None);
       Recv (mkResponse (Some A2) None); TurnComplete;
       Recv (mkResponse (Some A3) None); Play] (start "none") = Some s
    /\ speaker s = [A3]
    /\ audio_in_queue s = [].
Proof. eexists. repeat split. Qed.

(** Text goes to the session directly; the two microphone chunks go
    through the queue and come out in their order of arrival. *)
Lemma outbound_pump_fifo_witness :
  exists s',
    exec (L := SizeOnly)
      [MicOpen mic0; MicRead A1; Input "hi"; MicRead A2; Pump]
      (start "none") = Some s'
    /\ dict_sends (session_sent s') ++ pending (out_queue s')
       = pending [mic_msg A1; mic_msg A2]
    /\ session_sent s'
       = [mkSend (InStr "hi") (Some true); mkSend (InDict (mic_msg A1)) None].
Proof.
  pose proof (fun s' =>
                outbound_pump_fifo (L := SizeOnly)
                  [MicOpen mic0; MicRead A1; Input "hi"; MicRead A2; Pump]
                  (start "none") s') as H.
  edestruct H as (Hfifo & _); [reflexivity|].
  eexists. split; [reflexivity|]. split; [exact Hfifo | reflexivity].
Defined.

(** The operator quits a camera session in which every device is open. *)
Lemma device_release_witness :
  exists s,
    run (L := SizeOnly) "camera" [MicOpen mic0; SpeakerOpen; CamOpen; Input "q"]
      = Closed ExitCancelled s None
    /\ closes Speaker s = 0
    /\ closes Mic s = opens Mic s
    /\ opens Mic s = 1.
Proof.
  pose proof (fun s r =>
                device_release (L := SizeOnly) "camera"
                  [MicOpen mic0; SpeakerOpen; CamOpen; Input "q"]
                  ExitCancelled s r) as H.
  edestruct H as (Hsp & _ & _ & Hmic); [reflexivity|].
  destruct (Hmic eq_refl) as (_ & Hclose & Hopen).
  eexists. split; [reflexivity|]. split; [exact Hsp|].
  split; [exact Hclose | exact Hopen].
Defined.

(** C5 as claimed fails when the operator quits: the speaker stream and
    the camera were opened and are left open. *)
Lemma devices_left_open :
  exists s,
    run (L := SizeOnly) "camera" [MicOpen mic0; SpeakerOpen; CamOpen; Input "q"]
      = Closed ExitCancelled s None
    /\ opens Speaker s = 1 /\ closes Speaker s = 0
    /\ opens Camera s = 1 /\ closes Camera s = 0.
Proof. eexists. repeat split. Qed.

(** On the failure path the handler and the [finally] clause both close
    the microphone stream. *)
Example mic_closed_twice_on_failure :
  exists s,
    run (L := SizeOnly) "none" [MicOpen mic0; Fault ConnectionClosed]
      = Closed (ExitGroup ConnectionClosed) s None
    /\ opens Mic s = 1 /\ closes Mic s = 2.
Proof. eexists. repeat split. Qed.

(** The camera is released when a read fails; the session goes on. *)
Example camera_released_on_failed_read :
  exists s,
    exec (L := SizeOnly) [CamOpen; @CamRead SizeOnly false (0, 0)%N]
      (start "camera")
      = Some s
    /\ cap s = CapReleased /\ closes Camera s = 1.
Proof. eexists. repeat split. Qed.


End Scenarios.

(* ===================================================================== *)
(** * Further properties *)
(* ===================================================================== *)

(** ** Python strings *)

Section StripFacts.
Import Py.

Lemma lstrip_empty (s : str) : lstrip s = [] <-> all_space s = true.
Proof.
  induction s as [|c s IH]; simpl; [tauto|].
  destruct (is_space c); simpl; [exact IH|].
  split; discriminate.
Qed.

Lemma rstrip_empty (s : str) : rstrip s = [] <-> all_space s = true.
Proof.
  induction s as [|c s IH]; simpl; [tauto|].
  destruct (rstrip s) as [|c' r].
  - destruct (is_space c); simpl; [|split; discriminate].
    split; intros _; [now apply IH | reflexivity].
  - split; [discriminate|].
    intros H. apply andb_true_iff in H as [_ H].
    apply IH in H. discriminate H.
Qed.

Lemma strip_empty (s : str) : strip s = [] <-> all_space s = true.
Proof.
  unfold strip. rewrite rstrip_empty. split.
  - intros H. apply lstrip_empty.
    destruct (lstrip_spec s) as (_ & _ & _ & Hfirst).
    destruct (lstrip s) as [|c t]; [reflexivity|].
    simpl in H, Hfirst. rewrite Hfirst in H. discriminate H.
  - intros H. apply lstrip_empty in H. now rewrite H.
Qed.

Lemma lstrip_id (s : str) : not_space_at (first_char s) -> lstrip s = s.
Proof. destruct s as [|c s]; simpl; [reflexivity|]. now intros ->. Qed.

Lemma rstrip_id (s : str) : not_space_at (last_char s) -> rstrip s = s.
Proof.
  induction s as [|c s IH]; [reflexivity|].
  destruct s as [|c' s'].
  - simpl. now intros ->.
  - intros H. change (last_char (c :: c' :: s'))
      with (last_char (c' :: s')) in H.
    change (rstrip (c :: c' :: s'))
      with (match rstrip (c' :: s') with
            | [] => if is_space c then [] else [c]
            | r => c :: r
            end).
    now rewrite (IH H).
Qed.

Lemma strip_id (s : str) :
  not_space_at (first_char s) -> not_space_at (last_char s) -> strip s = s.
Proof.
  intros Hf Hl. unfold strip. rewrite (lstrip_id s Hf). now apply rstrip_id.
Qed.

Lemma lower_char_q (c : N) :
  lower_char c = 113%N -> c = 113%N \/ c = 81%N.
Proof.
  unfold lower_char.
  destruct ((65 <=? c) && (c <=? 90)
            || (192 <=? c) && (c <=? 222) && negb (c =? 215))%N eqn:Hup.
  - intros H. right. lia.
  - intros ->. now left.
Qed.

(** The only lines that [lower] maps to "q". *)
Lemma lower_q (text : str) : lower text = "q" <-> text = "q" \/ text = "Q".
Proof.
  split.
  - destruct text as [|c [|c' t]]; try discriminate.
    intros H. injection H as H.
    destruct (lower_char_q c H) as [-> | ->]; auto.
  - intros [-> | ->]; reflexivity.
Qed.

End StripFacts.

(** ** backend.py, further *)

Section BackendExtras.
Import Py Genai Backend.

Lemma from_client_iter_effect (pkt : dict) (c : Conn) :
  exists c' new,
    (from_client_iter pkt c = Next c'
     \/ exists e, from_client_iter pkt c = Raised e c')
    /\ ws_sent c' = ws_sent c
    /\ session_sent c' = session_sent c ++ new
    /\ List.length new <= 1
    /\ Forall turn_ending new.
Proof.
  unfold from_client_iter.
  destruct (pkt !! "text") as [[| |t|]|].
  1,2,4: exists c, []; rewrite app_nil_r; repeat split; eauto.
  - destruct (startswith t "TEXT:").
    + eexists. exists [mkSend (InStr (strip (slice_from 5 t))) (Some true)].
      split; [left; reflexivity|]. simpl. repeat split; auto.
      repeat constructor.
    + exists c, []. rewrite app_nil_r.
      destruct (startswith t "ACK:"); repeat split; eauto.
  - destruct (pkt !! "bytes") as [v|].
    + destruct (len v) as [[|n]|]; simpl.
      * exists c, []. rewrite app_nil_r. repeat split; eauto.
      * eexists. exists [mkSend (InDict (audio_msg v)) (Some true)].
        split; [left; reflexivity|]. simpl. repeat split; auto.
        repeat constructor.
      * exists c, []. rewrite app_nil_r. repeat split; eauto.
    + exists c, []. rewrite app_nil_r. repeat split; eauto.
Qed.

(** X1. [from_client] writes nothing to the client socket; it calls
    [session.send] at most once per packet received, and every call it
    makes ends the turn.  [from_gemini] never calls [session.send]. *)
Theorem relay_directions
  (inbox : list recv) (turns : list (list Response)) (c : Conn) :
  ws_sent (snd (from_client inbox c)) = ws_sent c
  /\ (exists new,
        session_sent (snd (from_client inbox c)) = session_sent c ++ new
        /\ List.length new <= List.length inbox
        /\ Forall turn_ending new)
  /\ session_sent (from_gemini turns c) = session_sent c.
Proof.
  split; [|split].
  - revert c. induction inbox as [|[pkt|e] inbox IH]; intros c; simpl; auto.
    + destruct (from_client_iter_effect pkt c)
        as (c' & new & [Hrun | [e Hrun]] & Hws & _); rewrite Hrun.
      * now rewrite IH.
      * now destruct e.
    + now destruct e.
  - revert c. induction inbox as [|[pkt|e] inbox IH]; intros c; simpl.
    + exists []. rewrite app_nil_r. repeat split; auto.
    + destruct (from_client_iter_effect pkt c)
        as (c' & new & [Hrun | [e Hrun]] & _ & Hsent & Hlen & Hall);
        rewrite Hrun.
      * destruct (IH c') as (new' & Hsent' & Hlen' & Hall').
        exists (new ++ new'). rewrite Hsent', Hsent, <- app_assoc.
        split; [reflexivity|]. rewrite List.length_app.
        split; [lia|]. now apply Forall_app.
      * exists new. split; [now destruct e|]. split; [lia | exact Hall].
    + exists []. rewrite app_nil_r.
      split; [now destruct e|]. split; [simpl; lia | constructor].
  - unfold from_gemini. revert c.
    induction turns as [|turn turns IH]; intros c; simpl; [reflexivity|].
    rewrite IH. now destruct (from_gemini_turn_frames turn c) as [_ ->].
Qed.

(** [from_client] on a longer inbox: while the task is still waiting,
    it goes on from the state it has reached; once it has returned or
    failed, what arrives later is not looked at. *)
Lemma from_client_resumes
  (inbox1 inbox2 : list recv) (c c1 : Conn) (st : task_state) :
  from_client inbox1 c = (st, c1) ->
  from_client (inbox1 ++ inbox2) c
  = match st with
    | Pending => from_client inbox2 c1
    | _ => (st, c1)
    end.
Proof.
  revert c. induction inbox1 as [|[pkt|e] inbox1 IH]; intros c H; simpl in *.
  - now inversion H.
  - destruct (from_client_iter pkt c) as [c'|e c']; [now apply IH|].
    destruct e; inversion H; reflexivity.
  - destruct e; inversion H; reflexivity.
Qed.

(** X3. The key "text" is looked at first: a packet that has it with
    the value [None] makes [from_client] fail with AttributeError, and
    the bytes the packet may carry as well are not forwarded. *)
Theorem text_key_none_fails
  (inbox1 inbox2 : list recv) (pkt : dict) (c c1 : Conn) :
  from_client inbox1 c = (Pending, c1) ->
  pkt !! "text" = Some VNone ->
  from_client (inbox1 ++ Pkt pkt :: inbox2) c = (Failed AttributeError, c1).
Proof.
  intros Hrun Htext. rewrite (from_client_resumes _ _ _ _ _ Hrun).
  simpl. unfold from_client_iter. now rewrite Htext.
Qed.

Lemma text_key_none_fails_witness :
  from_client ([] ++ [Pkt {[ "text" := VNone; "bytes" := VBytes [x01] ]}])
    (mkConn [] [])
  = (Failed AttributeError, mkConn [] []).
Proof.
  apply (text_key_none_fails [] [] {[ "text" := VNone; "bytes" := VBytes [x01] ]}
           (mkConn [] []) (mkConn [] [])); reflexivity.
Defined.

(** X4. A text frame "TEXT:<s>" whose payload neither begins nor ends
    with whitespace is forwarded as it is; and what is forwarded is the
    empty string exactly when the payload is whitespace throughout. *)
Theorem text_frame_verbatim (pkt : dict) (s : str) (c : Conn) :
  pkt !! "text" = Some (VStr ("TEXT:" ++ s)) ->
  (not_space_at (first_char s) -> not_space_at (last_char s) ->
   from_client_iter pkt c = Next (session_send (InStr s) (Some true) c))
  /\ (from_client_iter pkt c = Next (session_send (InStr "") (Some true) c)
      <-> all_space s = true).
Proof.
  intros Htext. unfold from_client_iter. rewrite Htext.
  destruct (text_frame_payload s) as [-> ->]. split.
  - intros Hf Hl. now rewrite strip_id.
  - rewrite <- strip_empty. split.
    + intros H. injection H as H.
      apply app_inv_head in H. now injection H.
    + now intros ->.
Qed.

Lemma text_frame_verbatim_witness :
  from_client_iter {[ "text" := VStr "TEXT:a  b" ]} (mkConn [] [])
  = Next (mkConn [mkSend (InStr "a  b") (Some true)] []).
Proof.
  edestruct (text_frame_verbatim {[ "text" := VStr "TEXT:a  b" ]} "a  b"
               (mkConn [] [])) as [H _]; [reflexivity|].
  apply H; reflexivity.
Defined.

(** The frames of one item: the audio frame if there is audio, then the
    text frame if there is text. *)
Lemma item_frames_eq (r : Response) :
  item_frames r
  = (if truthy_opt truthy_bytes (data r)
     then [WsBytes (bytes_of "AUDIO:" ++ default [] (data r))] else [])
    ++ (if truthy_opt truthy_str (text r)
        then [WsText ("TEXT:" ++ default [] (text r))] else []).
Proof.
  unfold item_frames, from_gemini_item.
  destruct (data r) as [[|b0 raw]|], (text r) as [[|a t]|]; reflexivity.
Qed.

Lemma item_frames_tagged (r : Response) : Forall tagged_frame (item_frames r).
Proof.
  rewrite item_frames_eq.
  destruct (data r) as [[|b0 raw]|], (text r) as [[|a t]|]; simpl;
    repeat match goal with
           | |- Forall _ [] => constructor
           | |- Forall _ (_ :: _) => constructor
           end;
    simpl; eexists; (split; [|reflexivity]); discriminate.
Qed.

(** X5. What [from_gemini] writes to the client is, item after item of
    the stream and in this order, one frame "AUDIO:" + data when the
    item has data that is not empty, and one frame "TEXT:" + text when
    it has text that is not empty: at most two frames for an item, none
    for an item with neither, and every frame has its tag followed by at
    least one byte or character. *)
Theorem from_gemini_frames_tagged (turns : list (list Response)) (c : Conn) :
  ws_sent (from_gemini turns c)
  = ws_sent c ++ flat_map item_frames (concat turns)
  /\ forall r : Response,
       item_frames r
       = (if truthy_opt truthy_bytes (data r)
          then [WsBytes (bytes_of "AUDIO:" ++ default [] (data r))] else [])
         ++ (if truthy_opt truthy_str (text r)
             then [WsText ("TEXT:" ++ default [] (text r))] else [])
       /\ Forall tagged_frame (item_frames r)
       /\ List.length (item_frames r) <= 2
       /\ (truthy_opt truthy_bytes (data r) = false ->
           truthy_opt truthy_str (text r) = false ->
           item_frames r = []).
Proof.
  split.
  - rewrite from_gemini_frames. f_equal.
    induction turns as [|turn turns IH]; simpl; [reflexivity|].
    now rewrite List.flat_map_app, IH.
  - intros r. split; [apply item_frames_eq|].
    split; [apply item_frames_tagged|].
    rewrite item_frames_eq.
    destruct (truthy_opt truthy_bytes (data r)),
             (truthy_opt truthy_str (text r)); simpl;
      (split; [lia|]); intros; congruence.
Qed.

End BackendExtras.

(** ** main1.py, further: the text input *)

Section SendTextExtras.
Import Py Genai Desktop.



(** X8. For a line other than "q" and "Q", [send_text] sends the line,
    or "." when the line is empty, so never the empty string, with
    [end_of_turn=True]; it counts the line exactly when the line holds a
    character that is not whitespace. *)
Theorem send_text_line (text : str) (s : AudioLoop) :
  text <> "q" -> text <> "Q" ->
  exists s',
    send_text_iter text s = Running s'
    /\ session_sent s'
       = session_sent s ++ [mkSend (InStr (text_payload text)) (Some true)]
    /\ text_payload text <> ""
    /\ user_message_count s'
       = (user_message_count s + if counted text then 1 else 0)%Z.
Proof.
  intros H1 H2. unfold send_text_iter.
  destruct (str_eqb_spec (lower text) "q") as [Hq|Hq];
    [apply lower_q in Hq; tauto|].
  assert (Hcount : truthy_str (strip text) = counted text).
  { unfold counted. destruct (all_space text) eqn:Hsp.
    - apply strip_empty in Hsp. now rewrite Hsp.
    - destruct (strip text) eqn:Hst; [|reflexivity].
      apply strip_empty in Hst. congruence. }
  rewrite Hcount.
  eexists. split; [reflexivity|].
  split; [destruct (counted text); reflexivity|].
  split; [destruct text; discriminate|].
  destruct (counted text); simpl; lia.
Qed.

Lemma send_text_line_witness :
  exists s',
    send_text_iter "  " (start "none") = Running s'
    /\ session_sent s' = [mkSend (InStr "  ") (Some true)]
    /\ user_message_count s' = 0%Z.
Proof.
  destruct (send_text_line "  " (start "none"))
    as (s' & Hrun & Hsent & _ & Hcount); [discriminate | discriminate |].
  exists s'. split; [exact Hrun|]. split; [exact Hsent | exact Hcount].
Defined.

End SendTextExtras.

(** ** main1.py, further: schedules *)

Section ScheduleExtras.
Import Py Genai Imaging Desktop.
Context {L : Imaging.Lib}.

Ltac step_cases H :=
  unfold step, send_text_iter, send_realtime_iter, listen_audio_open,
    listen_audio_iter, get_frames_open, get_frames_iter, get_screen_iter,
    play_audio_open, play_audio_iter, put, check_audio_input,
    receive_audio_turn_end in H;
  repeat match type of H with
         | context [if ?b then _ else _] => destruct b eqn:?
         | context [match ?x with _ => _ end] => destruct x eqn:?
         end;
  try discriminate H; inversion H; subst; clear H.

Lemma receive_audio_item_rest (r : Response) (s : AudioLoop) :
  display (receive_audio_item r s) = display s ++ texts_shown [Recv r]
  /\ user_message_count (receive_audio_item r s) = user_message_count s
  /\ video_mode (receive_audio_item r s) = video_mode s
  /\ summaries (receive_audio_item r s) = summaries s.
Proof.
  unfold receive_audio_item, show_text. cbn [texts_shown].
  destruct (data r) as [d|]; cbn [truthy_opt]; [destruct (truthy_bytes d)|];
    destruct (text r) as [t|]; try destruct (truthy_str t);
    simpl; rewrite ?app_nil_r; repeat split.
Qed.

(** A property kept by every step is kept by every schedule. *)
Lemma exec_keeps (P : AudioLoop -> Prop) :
  (forall ev s s', step ev s = Running s' -> P s -> P s') ->
  forall sched s s', exec sched s = Some s' -> P s -> P s'.
Proof.
  intros Hstep. induction sched as [|ev sched IH]; intros s s' Hexec HP;
    simpl in Hexec.
  - now inversion Hexec; subst.
  - destruct (step ev s) as [s1| | |] eqn:Hev; try discriminate.
    eapply IH; [exact Hexec|]. eapply Hstep; eauto.
Qed.

(** X9. The outbound queue never holds more than [maxsize] = 5
    messages: a producer that finds it full does not run, and nothing it
    holds is dropped to make room. *)
Theorem out_queue_bounded (sched : list event) (s s' : AudioLoop) :
  exec sched s = Some s' ->
  List.length (out_queue s) <= maxsize ->
  List.length (out_queue s') <= maxsize
  /\ (List.length (out_queue s') = maxsize ->
      forall data ret frame i,
        step (MicRead data) s' = Disabled
        /\ (cap s' = CapOpen -> ret = true ->
            step (CamRead ret frame) s' = Disabled)
        /\ step (ScreenGrab i) s' = Disabled).
Proof.
  intros Hexec Hlen. split.
  - refine (exec_keeps (fun t => List.length (out_queue t) <= maxsize)
                      _ sched s s' Hexec Hlen).
    clear. intros ev s s' Hstep Hlen.
    destruct ev;
      try (destruct (receive_audio_item_queue response s) as (_ & _ & Hq & _);
           inversion Hstep; subst; now rewrite Hq);
      step_cases Hstep; simpl in *; rewrite ?List.length_app; simpl;
      repeat match goal with
             | H : Nat.ltb _ _ = true |- _ => apply Nat.ltb_lt in H
             | H : out_queue _ = _ |- _ => rewrite H in *
             end; simpl in *; unfold maxsize in *; lia.
  - intros Hfull data ret frame i. simpl.
    unfold listen_audio_iter, get_frames_iter, get_screen_iter, _get_frame,
      _get_screen, put.
    rewrite Hfull, Nat.ltb_irrefl.
    split; [now destruct (audio_stream s')|].
    split; [intros -> ->; reflexivity|].
    now destruct (str_eqb (video_mode s') "screen").
Qed.

(** X10. Between two turn ends no audio is lost: what has been written
    to the speaker, followed by what waits in the inbound queue, is what
    was there before followed by the chunks received, in order. *)
Theorem audio_kept_within_turn (sched : list event) (s s' : AudioLoop) :
  exec sched s = Some s' ->
  turn_free sched = true ->
  speaker s' ++ audio_in_queue s'
  = speaker s ++ audio_in_queue s ++ audio_received sched.
Proof.
  revert s. induction sched as [|ev sched IH]; intros s Hexec Hfree;
    simpl in Hexec.
  - inversion Hexec; subst. simpl. now rewrite app_nil_r.
  - destruct (step ev s) as [s1| | |] eqn:Hstep; try discriminate.
    unfold turn_free in Hfree. simpl in Hfree.
    apply andb_true_iff in Hfree as [Hev Hfree].
    rewrite (IH _ Hexec Hfree). clear IH Hexec.
    destruct ev; try discriminate Hev; cbn [audio_received];
      try (destruct (receive_audio_item_queue response s) as (Hq & Hs & _);
           inversion Hstep; subst; rewrite Hq, Hs; cbn [audio_received];
           destruct (data response) as [d|]; [destruct (truthy_bytes d)|];
           now rewrite <- ?app_assoc, ?app_nil_r);
      step_cases Hstep; simpl; try reflexivity.
    now rewrite <- !app_assoc.
Qed.

(** X11. The model texts are printed in the order of the stream, and
    only [receive_audio] prints: after any schedule the display holds
    what it held, followed by the texts of the received items that
    brought no audio; the text of an item that brings audio is not
    printed. *)
Theorem texts_in_stream_order (sched : list event) (s s' : AudioLoop) :
  exec sched s = Some s' ->
  display s' = display s ++ texts_shown sched.
Proof.
  revert s. induction sched as [|ev sched IH]; intros s Hexec; simpl in Hexec.
  - inversion Hexec; subst. simpl. now rewrite app_nil_r.
  - destruct (step ev s) as [s1| | |] eqn:Hstep; try discriminate.
    rewrite (IH _ Hexec). clear IH Hexec.
    destruct ev;
      try (destruct (receive_audio_item_rest response s) as (Hd & _);
           inversion Hstep; subst; rewrite Hd; cbn [texts_shown];
           destruct (truthy_opt truthy_bytes (data response));
           [|destruct (text response) as [t|]; [destruct (truthy_str t)|]];
           now rewrite <- ?app_assoc, ?app_nil_r);
      step_cases Hstep; reflexivity.
Qed.

Lemma truthy_strip_counted (text : str) : truthy_str (strip text) = counted text.
Proof.
  unfold counted. destruct (all_space text) eqn:Hsp.
  - apply strip_empty in Hsp. now rewrite Hsp.
  - destruct (strip text) eqn:Hst; [|reflexivity].
    apply strip_empty in Hst. congruence.
Qed.

Lemma str_sends_app (a b : list SendCall) :
  str_sends (a ++ b) = str_sends a ++ str_sends b.
Proof.
  induction a as [|c a IH]; simpl; [reflexivity|].
  destruct (input c); simpl; now rewrite IH.
Qed.

(** X12. However the tasks interleave, the str messages sent to the
    session are the lines typed, in order, each sent once with
    [end_of_turn=True] and with "." in place of an empty line; and
    [user_message_count] has grown by the number of typed lines that
    hold a character other than whitespace. *)
Theorem typed_lines_sent (sched : list event) (s s' : AudioLoop) :
  exec sched s = Some s' ->
  str_sends (session_sent s')
  = str_sends (session_sent s)
    ++ List.map (fun text => (text_payload text, Some true)) (typed_lines sched)
  /\ user_message_count s'
     = (user_message_count s
        + Z.of_nat (List.length (List.filter counted (typed_lines sched))))%Z.
Proof.
  revert s. induction sched as [|ev sched IH]; intros s Hexec; simpl in Hexec.
  - inversion Hexec; subst. simpl. rewrite app_nil_r. split; [reflexivity|lia].
  - destruct (step ev s) as [s1| | |] eqn:Hstep; try discriminate.
    destruct (IH _ Hexec) as [-> ->]. clear IH Hexec.
    destruct ev as [line| |info|chunk| |ret frame|i|response| | | |e];
      cbn [typed_lines].
    1: { (* Input *)
      simpl in Hstep. unfold send_text_iter in Hstep.
      destruct (str_eqb (lower line) "q"); [discriminate|].
      inversion Hstep; subst; clear Hstep.
      rewrite truthy_strip_counted. cbn [List.map List.filter].
      destruct (counted line); simpl;
        rewrite str_sends_app, <- app_assoc; simpl;
        (split; [reflexivity|]); lia. }
    all: try (destruct (receive_audio_item_queue response s)
                as (_ & _ & _ & Hsent & _);
              destruct (receive_audio_item_rest response s) as (_ & Hcount & _);
              inversion Hstep; subst; now rewrite Hsent, Hcount).
    all: step_cases Hstep; simpl;
      rewrite ?str_sends_app, <- ?app_assoc; simpl;
      split; (reflexivity || lia).
Qed.

Lemma post_summaries (ev : event) (s s' : AudioLoop) :
  post (step ev s) = Some s' ->
  summaries s' = summaries s /\ video_mode s' = video_mode s.
Proof.
  intros Hpost.
  destruct (step ev s) as [s1| |s1|e s1] eqn:Hstep;
    simpl in Hpost; inversion Hpost; subst; clear Hpost;
    (destruct ev;
     try (destruct (receive_audio_item_rest response s) as (_ & _ & Hv & Hs);
          inversion Hstep; subst; now rewrite Hv, Hs);
     step_cases Hstep; split; reflexivity).
Qed.

Lemma run_body_summaries (sched : list event) :
  forall s x s', run_body sched s = Exit x s' -> summaries s' = summaries s.
Proof.
  induction sched as [|ev sched IH]; intros s x s' Hrun; simpl in Hrun;
    [discriminate|].
  destruct (step ev s) as [s1| |s1|e s1] eqn:Hstep; try discriminate.
  - rewrite (IH _ _ _ Hrun).
    apply (post_summaries ev). now rewrite Hstep.
  - inversion Hrun; subst. apply (post_summaries ev). now rewrite Hstep.
  - inversion Hrun; subst. apply (post_summaries ev). now rewrite Hstep.
Qed.

(** X13. However a session ends, by the operator's quit or by a task
    that raised, and also when [run] itself ends with an exception, the
    summary has been printed exactly once, with the count of messages
    the session ended with. *)
Theorem summary_printed_once
  (video_mode : str) (sched : list event) (x : body_exit) (s : AudioLoop)
  (raised : option exn) :
  run video_mode sched = Closed x s raised ->
  summaries s = [user_message_count s].
Proof.
  unfold run. intros Hrun.
  destruct (run_body sched (start video_mode)) as [| |x0 s0] eqn:Hbody;
    try discriminate.
  pose proof (run_body_summaries _ _ _ _ Hbody) as Hsum. simpl in Hsum.
  unfold run_handlers, audio_stream_close in Hrun.
  destruct x0 as [|e], (audio_stream s0) eqn:Ha; simpl in Hrun;
    rewrite ?Ha in Hrun; simpl in Hrun;
    inversion Hrun; subst; clear Hrun; simpl; now rewrite Hsum.
Qed.

(** X14. When a task raises, what [run] does depends on the microphone.
    If [listen_audio] had opened its stream, the stream is closed twice,
    once by the handler and once by the [finally] clause, and [run]
    raises nothing.  If it had not, nothing is closed and [run] ends
    with AttributeError. *)
Theorem failure_path
  (video_mode : str) (sched : list event) (e : exn) (s : AudioLoop)
  (raised : option exn) :
  run video_mode sched = Closed (ExitGroup e) s raised ->
  (audio_stream s = true /\ raised = None
   /\ opens Mic s = 1 /\ closes Mic s = 2)
  \/ (audio_stream s = false /\ raised = Some AttributeError
      /\ opens Mic s = 0 /\ closes Mic s = 0).
Proof.
  unfold run. intros Hrun.
  destruct (run_body sched (start video_mode)) as [| |x0 s0] eqn:Hbody;
    try discriminate.
  assert (Hagree : devices_agree s0).
  { eapply run_body_devices_agree; [|exact Hbody].
    unfold devices_agree, opens, closes. simpl. tauto. }
  destruct Hagree as (Hm & _ & _ & Hcm & _).
  unfold opens, closes in *.
  unfold run_handlers, audio_stream_close in Hrun.
  destruct x0 as [|e0]; [destruct (audio_stream s0); discriminate Hrun|].
  destruct (audio_stream s0) eqn:Ha; simpl in Hrun;
    rewrite ?Ha in Hrun; simpl in Hrun;
    inversion Hrun; subst; clear Hrun; simpl;
    rewrite ?List.filter_app, ?List.length_app; simpl;
    rewrite ?Hm, ?Hcm; [left | right]; repeat split; auto.
Qed.

Lemma mic_msg_is_audio (data : bytes) : is_audio_msg (mic_msg data).
Proof. unfold is_audio_msg, mic_msg. by simplify_map_eq. Qed.

(** X15. In a video mode other than "camera" and "screen" neither
    video task exists: whatever the schedule, the camera is never
    opened, and every message in the outbound queue and every dict sent
    to the session is an "audio/pcm" message of the microphone. *)
Theorem audio_only_without_video
  (video_mode : str) (sched : list event) (s' : AudioLoop) :
  str_eqb video_mode "camera" = false ->
  str_eqb video_mode "screen" = false ->
  exec sched (start video_mode) = Some s' ->
  cap s' = CapNone
  /\ opens Camera s' = 0
  /\ Forall is_audio_msg (out_queue s')
  /\ Forall (fun sent => is_audio_msg (fst sent)) (dict_sends (session_sent s')).
Proof.
  intros Hcam Hscreen Hexec.
  pose (P := fun t : AudioLoop =>
               Desktop.video_mode t = video_mode
               /\ cap t = CapNone
               /\ opens Camera t = 0
               /\ Forall is_audio_msg (out_queue t)
               /\ Forall (fun sent => is_audio_msg (fst sent))
                         (dict_sends (session_sent t))).
  assert (HP : P s').
  { refine (exec_keeps P _ sched (start video_mode) s' Hexec _).
    - clear Hexec. intros ev s s1 Hstep (Hvm & Hcap & Hopen & Hq & Hsent).
      unfold P, opens in *.
      destruct ev;
        try (destruct (receive_audio_item_queue response s)
               as (_ & _ & Ho & Hs & Hd & _ & _ & Hc);
             destruct (receive_audio_item_rest response s) as (_ & _ & Hv & _);
             inversion Hstep; subst; rewrite Ho, Hs, Hd, Hc, Hv; tauto);
        step_cases Hstep; simpl in *;
        rewrite ?dict_sends_app, ?List.filter_app, ?List.length_app; simpl;
        try congruence;
        repeat match goal with
               | H : Forall _ (_ :: _) |- _ => apply Forall_cons in H as [? ?]
               end;
        repeat split; auto; try lia;
        try (apply Forall_app; split; auto; repeat constructor; auto);
        try apply mic_msg_is_audio.
    - unfold P, opens. simpl. repeat split; auto. }
  unfold P in HP. tauto.
Qed.

(** X16. A read of the camera that fails ends video for the rest of
    the session: once [get_frames] has released the camera, the camera
    stays released and no schedule has a further step of that task. *)
Theorem camera_not_reopened (sched : list event) (s s' : AudioLoop) :
  exec sched s = Some s' ->
  cap s = CapReleased ->
  cap s' = CapReleased
  /\ forallb (fun ev => negb (camera_step ev)) sched = true.
Proof.
  revert s. induction sched as [|ev sched IH]; intros s Hexec Hcap;
    simpl in Hexec.
  - inversion Hexec; subst. auto.
  - destruct (step ev s) as [s1| | |] eqn:Hstep; try discriminate.
    assert (Hev : cap s1 = CapReleased /\ camera_step ev = false).
    { destruct ev;
        try (destruct (receive_audio_item_queue response s)
               as (_ & _ & _ & _ & _ & _ & _ & Hc);
             inversion Hstep; subst; now rewrite Hc);
        step_cases Hstep; simpl in *; split; congruence. }
    destruct Hev as [Hcap1 Hev].
    destruct (IH _ Hexec Hcap1) as [Hfinal Hall].
    split; [exact Hfinal|]. simpl. now rewrite Hev, Hall.
Qed.

End ScheduleExtras.

Section ExtraScenarios.
Import Py Genai Imaging Desktop.

Lemma out_queue_bounded_witness :
  exists s',
    exec (L := SizeOnly)
      [MicOpen (Some {[ "index" := VInt 0 ]}); MicRead [x01]; MicRead [x02];
       MicRead [x03]; MicRead [x04]; MicRead [x05]] (start "none") = Some s'
    /\ List.length (out_queue s') = maxsize
    /\ step (L := SizeOnly) (MicRead [x06]) s' = Disabled.
Proof.
  pose proof (fun s' =>
                out_queue_bounded (L := SizeOnly)
                  [MicOpen (Some {[ "index" := VInt 0 ]}); MicRead [x01];
                   MicRead [x02]; MicRead [x03]; MicRead [x04]; MicRead [x05]]
                  (start "none") s') as H.
  edestruct H as (_ & Hfull); [reflexivity | vm_compute; lia |].
  eexists. split; [reflexivity|]. split; [reflexivity|].
  apply (Hfull eq_refl [x06] true (0, 0)%N (0, 0)%N).
Defined.

Lemma audio_kept_within_turn_witness :
  exists s',
    exec (L := SizeOnly)
      [SpeakerOpen; Recv (mkResponse (Some [x01]) None);
       Recv (mkResponse (Some [x02]) (Some (u "hi"))); Play] (start "none")
      = Some s'
    /\ speaker s' ++ audio_in_queue s' = [[x01]; [x02]].
Proof.
  pose proof (fun s' =>
                audio_kept_within_turn (L := SizeOnly)
                  [SpeakerOpen; Recv (mkResponse (Some [x01]) None);
                   Recv (mkResponse (Some [x02]) (Some (u "hi"))); Play]
                  (start "none") s') as H.
  eexists. split; [reflexivity|]. apply H; reflexivity.
Defined.

Lemma texts_in_stream_order_witness :
  exists s',
    exec (L := SizeOnly)
      [Recv (mkResponse None (Some (u "one")));
       Recv (mkResponse (Some [x01]) (Some (u "lost"))); Input "x";
       Recv (mkResponse (Some []) (Some (u "two")))] (start "none") = Some s'
    /\ display s' = [u "one"; u "two"].
Proof.
  pose proof (fun s' =>
                texts_in_stream_order (L := SizeOnly)
                  [Recv (mkResponse None (Some (u "one")));
                   Recv (mkResponse (Some [x01]) (Some (u "lost"))); Input "x";
                   Recv (mkResponse (Some []) (Some (u "two")))]
                  (start "none") s') as H.
  eexists. split; [reflexivity|]. apply H. reflexivity.
Defined.

Lemma typed_lines_sent_witness :
  exists s',
    exec (L := SizeOnly)
      [MicOpen (Some {[ "index" := VInt 0 ]}); Input "hi"; MicRead [x01];
       Input ""; Pump; Input " "] (start "none") = Some s'
    /\ str_sends (session_sent s')
       = [(u "hi", Some true); (u ".", Some true); (u " ", Some true)]
    /\ user_message_count s' = 1%Z.
Proof.
  pose proof (fun s' =>
                typed_lines_sent (L := SizeOnly)
                  [MicOpen (Some {[ "index" := VInt 0 ]}); Input "hi";
                   MicRead [x01]; Input ""; Pump; Input " "]
                  (start "none") s') as H.
  edestruct H as [Hsent Hcount]; [reflexivity|].
  eexists. split; [reflexivity|]. split; [exact Hsent | exact Hcount].
Defined.

Lemma summary_printed_once_witness :
  exists s,
    run (L := SizeOnly) "none" [Input "hi"; MicOpen None]
      = Closed (ExitGroup TypeError) s (Some AttributeError)
    /\ summaries s = [1%Z].
Proof.
  pose proof (fun s =>
                summary_printed_once (L := SizeOnly) "none"
                  [Input "hi"; MicOpen None] (ExitGroup TypeError) s
                  (Some AttributeError)) as H.
  eexists. split; [reflexivity|]. apply H. reflexivity.
Defined.

Lemma failure_path_witness :
  exists s,
    run (L := SizeOnly) "none"
      [MicOpen (Some {[ "index" := VInt 0 ]}); Fault ConnectionClosed]
      = Closed (ExitGroup ConnectionClosed) s None
    /\ closes Mic s = 2.
Proof.
  pose proof (fun s =>
                failure_path (L := SizeOnly) "none"
                  [MicOpen (Some {[ "index" := VInt 0 ]});
                   Fault ConnectionClosed] ConnectionClosed s None) as H.
  edestruct H as [(_ & _ & _ & Hc) | (_ & Hr & _)]; [reflexivity | |].
  - eexists. split; [reflexivity | exact Hc].
  - discriminate Hr.
Defined.

Lemma audio_only_without_video_witness :
  exists s',
    exec (L := SizeOnly)
      [MicOpen (Some {[ "index" := VInt 0 ]}); MicRead [x01]; Pump;
       MicRead [x02]] (start "none") = Some s'
    /\ Forall is_audio_msg (out_queue s')
    /\ List.length (dict_sends (session_sent s')) = 1.
Proof.
  pose proof (fun s' =>
                audio_only_without_video (L := SizeOnly) "none"
                  [MicOpen (Some {[ "index" := VInt 0 ]}); MicRead [x01]; Pump;
                   MicRead [x02]] s') as H.
  edestruct H as (_ & _ & Hq & _); [reflexivity | reflexivity | reflexivity |].
  eexists. split; [reflexivity|]. split; [exact Hq | reflexivity].
Defined.

Lemma camera_not_reopened_witness :
  exists s',
    exec (L := SizeOnly) [MicOpen (Some {[ "index" := VInt 0 ]}); MicRead [x01]]
      (set_cap CapReleased (start "camera")) = Some s'
    /\ cap s' = CapReleased
    /\ step (L := SizeOnly) CamOpen s' = Disabled.
Proof.
  pose proof (fun s' =>
                camera_not_reopened (L := SizeOnly)
                  [MicOpen (Some {[ "index" := VInt 0 ]}); MicRead [x01]]
                  (set_cap CapReleased (start "camera")) s') as H.
  edestruct H as [Hcap _]; [reflexivity | reflexivity |].
  eexists. split; [reflexivity|]. split; [exact Hcap | reflexivity].
Defined.

End ExtraScenarios.

(** ** Whitespace beyond Latin-1 *)

Section UnicodeWhitespace.
Import Py Genai.

(** A text frame whose payload is "hi" between two EM SPACE (U+2003):
    the server sends "hi". *)
Example text_frame_em_space :
  Backend.from_client_iter
    {[ "text" := VStr ("TEXT:" ++ [8195; 104; 105; 8195]%N) ]}
    (Backend.mkConn [] [])
  = Backend.Next (Backend.mkConn [mkSend (InStr "hi") (Some true)] []).
Proof. reflexivity. Qed.

(** A text frame whose payload is one IDEOGRAPHIC SPACE (U+3000): the
    server sends the empty string. *)
Example text_frame_ideographic_space :
  Backend.from_client_iter
    {[ "text" := VStr ("TEXT:" ++ [12288]%N) ]} (Backend.mkConn [] [])
  = Backend.Next (Backend.mkConn [mkSend (InStr "") (Some true)] []).
Proof. reflexivity. Qed.

(** A typed line of one EM SPACE is sent as typed and not counted. *)
Example em_space_line_not_counted :
  Desktop.send_text_iter [8195]%N (Desktop.start "none")
  = Desktop.Running
      (Desktop.session_send (InStr [8195]%N) (Some true) (Desktop.start "none")).
Proof. reflexivity. Qed.

End UnicodeWhitespace.
